(** * Prism: the global-state machine of the palette editor

    A shallow embedding of [global-state.tsx] (the xstate machine that owns
    the palettes document and its undo/redo history) together with the
    properties of its commands, followed by the change handlers of the color
    page and the reducer of [export-scales.tsx], which read and write that
    document.

    Conventions of the embedding.
    - A JavaScript number is an IEEE 754 binary64 value: Rocq's primitive
      [float], whose [+], [-], [*] and [/] are the JavaScript operators.
    - A read that JavaScript answers with [undefined] (an absent property, an
      array slot past the end) is [None].  Array slots and color channels are
      therefore options: the recipes below can store [undefined] in them.
    - An object used as a dictionary is a [gmap] over [string] keys.
    - The recipes are written for immer's [assign]: they receive a draft of
      the context and the machine takes the finished draft as the next
      context.  Here a recipe is a function from the context to the next
      context; it answers [None] where the JavaScript raises a [TypeError]
      (a property of [undefined] is read), in which case immer drops the
      draft and the machine keeps its state. *)

From Stdlib Require Import Floats ZArith.
From stdpp Require Import gmap strings list fin_maps pretty.

(** ** Numbers *)

Module Number.

(** [ToNumber] of a value that is a number or [undefined]. *)
Definition ToNumber (v : option float) : float :=
  match v with
  | Some x => x
  | None => nan
  end.

(** An integer (an array index or length) as a number.  Array lengths are
    below 2^32, far inside the range where the conversion is exact. *)
Definition ofZ (z : Z) : float :=
  match z with
  | Z0 => 0%float
  | Zpos _ => PrimFloat.of_uint63 (Uint63.of_Z z)
  | Zneg _ => (- PrimFloat.of_uint63 (Uint63.of_Z (Z.abs z)))%float
  end.

Definition isNegative (x : float) : bool :=
  match Prim2SF x with
  | S754_zero s | S754_infinity s | S754_finite s _ _ => s
  | S754_nan => false
  end.

(** [Math.max(a, b)]: NaN when an argument is NaN, and +0 is larger
    than -0. *)
Definition Math_max (a b : float) : float :=
  if is_nan a || is_nan b then nan
  else if (a <? b)%float then b
  else if (b <? a)%float then a
  else if isNegative a then b else a.

(** [Math.round(x)]: the integer closest to [x], a tie going towards
    +infinity, that is floor(x + 1/2) computed exactly; NaN, the infinities
    and the zeros are returned as they are, and a result of zero keeps the
    sign of [x]. *)
Definition Math_round (x : float) : float :=
  match Prim2SF x with
  | S754_finite s m e =>
      if (0 <=? e)%Z then x
      else
        let d := (2 ^ (- e))%Z in
        let n := (if s then (d - 2 * Z.pos m) / (2 * d)
                  else (2 * Z.pos m + d) / (2 * d))%Z in
        if (n =? 0)%Z then (if s then (-0)%float else 0%float) else ofZ n
  | _ => x
  end.

End Number.
Import Number.

(** ** JavaScript arrays as lists *)

Module JsArray.
Section JsArray.
Context {A : Type}.

(** [a[i]] for an integer [i]. *)
Definition get (a : list A) (i : Z) : option A :=
  if (i <? 0)%Z then None else a !! Z.to_nat i.

(** The position a relative index of [slice] and [splice] stands for:
    a negative one counts from the end, and the result is clamped to
    [0 .. length]. *)
Definition relative (len : nat) (k : Z) : nat :=
  if (k <? 0)%Z then Z.to_nat (Z.max (Z.of_nat len + k) 0)
  else Z.to_nat (Z.min k (Z.of_nat len)).

(** [a.slice(start, end)]; [a.slice(start)] is [slice a start None]. *)
Definition slice (a : list A) (start : Z) (end_ : option Z) : list A :=
  let k := relative (length a) start in
  let final := match end_ with
               | Some e => relative (length a) e
               | None => length a
               end in
  take (final - k) (drop k a).

(** The array after [a.splice(start, 1)]. *)
Definition splice1 (a : list A) (start : Z) : list A :=
  let k := relative (length a) start in
  take k a ++ drop (S k) a.

(** The array after [a.push(x)]. *)
Definition push (a : list A) (x : A) : list A := a ++ [x].

(** The array after [a.pop()]; popping an empty array leaves it empty. *)
Definition pop (a : list A) : list A := take (length a - 1) a.

End JsArray.
End JsArray.

(** ** The document ([./types]) *)

(** [Curve['type']]: the channel a curve drives. *)
Inductive CurveType := Hue | Saturation | Lightness.

#[global] Instance CurveType_eq_dec : EqDecision CurveType.
Proof. solve_decision. Defined.

Definition CurveType_name (t : CurveType) : string :=
  match t with
  | Hue => "hue"
  | Saturation => "saturation"
  | Lightness => "lightness"
  end.

(** A color object.  A channel is [None] when the object has no such
    property: [Color] declares the three of them, and [{...undefined}] has
    none. *)
Record Color := mkColor {
  hue : option float;
  saturation : option float;
  lightness : option float
}.

(** [color[type]] *)
Definition channel (c : Color) (t : CurveType) : option float :=
  match t with
  | Hue => hue c
  | Saturation => saturation c
  | Lightness => lightness c
  end.

(** [{...color, [type]: v}] *)
Definition withChannel (c : Color) (t : CurveType) (v : option float) : Color :=
  match t with
  | Hue => mkColor v (saturation c) (lightness c)
  | Saturation => mkColor (hue c) v (lightness c)
  | Lightness => mkColor (hue c) (saturation c) v
  end.

(** [{...slot}] for an array slot: spreading [undefined] gives [{}]. *)
Definition spread (slot : option Color) : Color :=
  match slot with
  | Some c => c
  | None => mkColor None None None
  end.

(** [Scale['curves']]: at most one curve id per channel. *)
Record ScaleCurves := mkScaleCurves {
  hueCurve : option string;
  saturationCurve : option string;
  lightnessCurve : option string
}.

Definition noCurves : ScaleCurves := mkScaleCurves None None None.

(** [curves[type]] *)
Definition curveOf (cs : ScaleCurves) (t : CurveType) : option string :=
  match t with
  | Hue => hueCurve cs
  | Saturation => saturationCurve cs
  | Lightness => lightnessCurve cs
  end.

(** [curves[type] = id] for [Some id], [delete curves[type]] for [None]. *)
Definition withCurve (cs : ScaleCurves) (t : CurveType) (id : option string) : ScaleCurves :=
  match t with
  | Hue => mkScaleCurves id (saturationCurve cs) (lightnessCurve cs)
  | Saturation => mkScaleCurves (hueCurve cs) id (lightnessCurve cs)
  | Lightness => mkScaleCurves (hueCurve cs) (saturationCurve cs) id
  end.

Record Scale := mkScale {
  scale_id : string;
  scale_name : string;
  scale_colors : list (option Color);
  scale_curves : ScaleCurves;
  scale_namingSchemeId : option string
}.

Record Curve := mkCurve {
  curve_id : string;
  curve_name : string;
  curve_type : CurveType;
  curve_values : list (option float)
}.

Record NamingScheme := mkNamingScheme {
  namingScheme_id : string;
  namingScheme_name : string;
  namingScheme_names : list string
}.

Record Palette := mkPalette {
  palette_id : string;
  palette_name : string;
  palette_backgroundColor : string;
  palette_scales : gmap string Scale;
  palette_curves : gmap string Curve;
  palette_namingSchemes : gmap string NamingScheme
}.

(** [Record<string, Palette>]: the document. *)
Abbreviation Palettes := (gmap string Palette).

(** Field updates, written once. *)
Definition setColors (s : Scale) (cs : list (option Color)) : Scale :=
  mkScale (scale_id s) (scale_name s) cs (scale_curves s) (scale_namingSchemeId s).

Definition setScaleCurves (s : Scale) (cs : ScaleCurves) : Scale :=
  mkScale (scale_id s) (scale_name s) (scale_colors s) cs (scale_namingSchemeId s).

Definition setNamingSchemeId (s : Scale) (n : option string) : Scale :=
  mkScale (scale_id s) (scale_name s) (scale_colors s) (scale_curves s) n.

Definition setValues (c : Curve) (vs : list (option float)) : Curve :=
  mkCurve (curve_id c) (curve_name c) (curve_type c) vs.

Definition setScales (p : Palette) (ss : gmap string Scale) : Palette :=
  mkPalette (palette_id p) (palette_name p) (palette_backgroundColor p)
            ss (palette_curves p) (palette_namingSchemes p).

Definition setCurves (p : Palette) (cs : gmap string Curve) : Palette :=
  mkPalette (palette_id p) (palette_name p) (palette_backgroundColor p)
            (palette_scales p) cs (palette_namingSchemes p).

(** ** The machine's context and events *)

Record MachineContext := mkContext {
  palettes : Palettes;
  past : list Palettes;
  future : list Palettes
}.

(** [MachineEvent], the commands the interface sends. *)
Inductive MachineEvent :=
  | CREATE_PALETTE
  | DUPLICATE_PALETTE (paletteId : string)
  | DELETE_PALETTE (paletteId : string)
  | CHANGE_PALETTE_NAME (paletteId name : string)
  | IMPORT_SCALES (paletteId : string) (scales : gmap string Scale) (replace : bool)
  | CHANGE_PALETTE_BACKGROUND_COLOR (paletteId backgroundColor : string)
  | CREATE_SCALE (paletteId : string)
  | DELETE_SCALE (paletteId scaleId : string)
  | DUPLICATE_SCALE (paletteId scaleId : string)
  | CHANGE_SCALE_NAME (paletteId scaleId name : string)
  | CREATE_COLOR (paletteId scaleId : string) (afterIndex : option Z)
  | POP_COLOR (paletteId scaleId : string)
  | DELETE_COLOR (paletteId scaleId : string) (index : Z)
  | CHANGE_COLOR_VALUE (paletteId scaleId : string) (index : Z) (value : Color)
  | CREATE_CURVE_FROM_SCALE (paletteId scaleId : string) (curveType : CurveType)
  | CREATE_NAMING_SCHEME_FROM_SCALE (paletteId scaleId : string)
  | CHANGE_CURVE_NAME (paletteId curveId name : string)
  | DELETE_CURVE (paletteId curveId : string)
  | CHANGE_SCALE_CURVE (paletteId scaleId : string) (curveType : CurveType) (curveId : string)
  | CHANGE_SCALE_NAMING_SCHEME (paletteId scaleId : string) (namingSchemeId : option string)
  | CHANGE_CURVE_VALUE (paletteId curveId : string) (index : Z) (value : float)
  | CHANGE_CURVE_VALUES (paletteId curveId : string) (values : list (option float))
  | CHANGE_SCALE_COLORS (paletteId scaleId : string) (colors : list (option Color))
  | APPLY_EASING_FUNCTION (paletteId curveId : string) (easingFunction : float -> float)
  | UPDATE_NAMING_SCHEME (paletteId : string) (namingScheme : NamingScheme)
  | UNDO
  | REDO.

(** What the machine receives: a command, or the delayed event that
    [after: {200: ...}] schedules when [debouncing] is entered. *)
Inductive Signal :=
  | Send (event : MachineEvent)
  | After200.

(** The answers of the two sources of fresh values during one action:
    [uniqueId n] is the identifier the n-th call of [uniqueId()] returns, and
    [randomIntegerInRange] the random draw. *)
Record Effects := mkEffects {
  uniqueId : nat -> string;
  randomIntegerInRange : Z -> Z -> Z
}.

(** One entry of [example-scales.json]: a hex string or an array of them. *)
Inductive ExampleScale :=
  | OneHex (hex : string)
  | HexArray (hexes : list string).

(** ** Reading and mapping arrays whose callbacks can raise *)

Module JsRead.
Section JsRead.
Context {A : Type}.

(** [a[i]] for an array whose slots can hold [undefined]: the answer is
    [undefined] past the end, before the start and at such a slot. *)
Definition read (a : list (option A)) (i : Z) : option A :=
  match JsArray.get a i with
  | Some slot => slot
  | None => None
  end.

(** [a.map((x, index) => f(index, x))] where the callback can raise: the
    callbacks run from the first index on, and the first one that raises
    ends the map. *)
Fixpoint mapFrom {B : Type} (f : nat -> A -> option B) (i : nat) (a : list A)
  : option (list B) :=
  match a with
  | [] => Some []
  | x :: a' =>
      match f i x with
      | Some y =>
          match mapFrom f (S i) a' with
          | Some ys => Some (y :: ys)
          | None => None
          end
      | None => None
      end
  end.

Definition map {B : Type} (f : nat -> A -> option B) (a : list A) : option (list B) :=
  mapFrom f 0 a.

End JsRead.
End JsRead.

(** ** The curve engine *)

(** Modelled from the spec: the effective value of one channel in [getColor]
    of [./utils] (the [resolveColor] of the spec's section 4.1), which the
    machine imports and which is not among the sources.  For each channel: if
    [scale.curves[channel]] is set, the effective value is
    [curves[scale.curves[channel]].values[index] + scale.colors[index][channel]],
    otherwise it is [scale.colors[index][channel]].  The expressions are read
    as JavaScript: reading a property of a color slot or of a curve that is
    [undefined] raises, and adding [undefined] gives NaN. *)
Definition effectiveChannel (curves : gmap string Curve) (scale : Scale)
    (color : Color) (index : nat) (t : CurveType) : option (option float) :=
  match curveOf (scale_curves scale) t with
  | Some id =>
      match curves !! id with
      | Some curve =>
          Some (Some (ToNumber (JsRead.read (curve_values curve) (Z.of_nat index))
                      + ToNumber (channel color t))%float)
      | None => None
      end
  | None => Some (channel color t)
  end.

(** Modelled from the spec: [getColor(curves, scale, index)] of [./utils],
    which is not among the sources: the color whose three channels are the
    effective values above, for the slot [scale.colors[index]]. *)
Definition getColor (curves : gmap string Curve) (scale : Scale) (index : nat)
  : option Color :=
  match JsRead.read (scale_colors scale) (Z.of_nat index) with
  | Some color =>
      match effectiveChannel curves scale color index Hue,
            effectiveChannel curves scale color index Saturation,
            effectiveChannel curves scale color index Lightness with
      | Some h, Some s, Some l => Some (mkColor h s l)
      | _, _, _ => None
      end
  | None => None
  end.

(** ** The machine *)

Inductive StateValue := idle | debouncing.

Record State := mkState {
  value : StateValue;
  context : MachineContext
}.

(** [ToBoolean] of an object: every object is truthy. *)
Definition objectToBoolean (_ : Color) : bool := true.

(** [ToBoolean] of a string: only the empty string is falsy. *)
Definition stringToBoolean (s : string) : bool :=
  match s with
  | EmptyString => false
  | String _ _ => true
  end.

(** [keyBy(scales, 'id')]: a later scale replaces an earlier one of the same id. *)
Definition keyBy (scales : list Scale) : gmap string Scale :=
  foldl (fun m s => <[scale_id s := s]> m) ∅ scales.

Section Machine.

(** What the machine imports and the sources do not hold: [hexToColor] and
    [lerp] of [./utils] ([hexToColor None] is its answer to [undefined]),
    the tables [css-color-names.json] and [example-scales.json]. *)
Variable hexToColor : option string -> Color.
Variable lerp : float -> float -> float -> float.
Variable cssColorNames : list string.
Variable exampleScales : list (string * ExampleScale).

(** The recipes of the commands no property below looks into
    ([CHANGE_PALETTE_NAME], [IMPORT_SCALES], [CREATE_SCALE], ...): each of
    them reads and writes [context.palettes] only. *)
Variable restRecipe : Effects -> MachineEvent -> Palettes -> option Palettes.

(** [context.palettes[paletteId].scales[scaleId]], rewritten by [f]. *)
Definition onScale (paletteId scaleId : string)
    (f : Palette -> Scale -> option Scale) (ps : Palettes) : option Palettes :=
  match ps !! paletteId with
  | Some palette =>
      match palette_scales palette !! scaleId with
      | Some scale =>
          match f palette scale with
          | Some scale' =>
              Some (<[paletteId :=
                       setScales palette (<[scaleId := scale']> (palette_scales palette))]> ps)
          | None => None
          end
      | None => None
      end
  | None => None
  end.

(** *** History *)

Definition UNDO_recipe (c : MachineContext) : MachineContext :=
  if (0 <? length (past c))%nat then
    match JsArray.get (past c) (Z.of_nat (length (past c)) - 1) with
    | Some present =>
        mkContext present
                  (JsArray.slice (past c) 0 (Some (Z.of_nat (length (past c)) - 1)%Z))
                  (JsArray.push (future c) (palettes c))
    | None => c
    end
  else c.

Definition REDO_recipe (c : MachineContext) : MachineContext :=
  if (0 <? length (future c))%nat then
    match JsArray.get (future c) 0 with
    | Some present =>
        mkContext present
                  (JsArray.push (past c) (palettes c))
                  (JsArray.slice (future c) 1 None)
    | None => c
    end
  else c.

(** The [exit] action of [idle]. *)
Definition idle_exit (c : MachineContext) : MachineContext :=
  let size := 25%Z in
  mkContext (palettes c)
            (JsArray.slice (JsArray.push (past c) (palettes c)) (- size) None)
            [].

(** *** Palettes *)

Definition scaleArray (scale : ExampleScale) : list string :=
  match scale with
  | OneHex hex => [hex]
  | HexArray hexes => hexes
  end.

Definition CREATE_PALETTE_recipe (eff : Effects) (ps : Palettes) : option Palettes :=
  let paletteId := uniqueId eff 0 in
  let scales :=
    imap (fun i '(name, scale) =>
            mkScale (uniqueId eff (S i)) name
                    ((fun hex => Some (hexToColor (Some hex))) <$> scaleArray scale)
                    noCurves None)
         exampleScales in
  Some (<[paletteId :=
           mkPalette paletteId "Untitled" "#ffffff" (keyBy scales) ∅ ∅]> ps).

Definition DUPLICATE_PALETTE_recipe (eff : Effects) (paletteId : string)
    (ps : Palettes) : option Palettes :=
  let new := uniqueId eff 0 in
  match ps !! paletteId with
  | Some existingPalette =>
      Some (<[new :=
               mkPalette new (palette_name existingPalette +:+ " (copy)")
                         (palette_backgroundColor existingPalette)
                         (palette_scales existingPalette)
                         (palette_curves existingPalette)
                         (palette_namingSchemes existingPalette)]> ps)
  | None => None
  end.

Definition DELETE_PALETTE_recipe (paletteId : string) (ps : Palettes) : option Palettes :=
  Some (delete paletteId ps).

(** *** Colors *)

Definition CREATE_COLOR_recipe (eff : Effects) (paletteId scaleId : string)
    (afterIndex : option Z) : Palettes -> option Palettes :=
  onScale paletteId scaleId (fun _ scale =>
    let colors := scale_colors scale in
    let afterIndex := default (Z.of_nat (length colors) - 1)%Z afterIndex in
    let color := spread (JsRead.read colors afterIndex) in
    let color :=
      if negb (objectToBoolean color) then
        let randomIndex := randomIntegerInRange eff 0 (Z.of_nat (length cssColorNames)) in
        let name := JsArray.get cssColorNames randomIndex in
        hexToColor name
      else if (afterIndex =? Z.of_nat (length colors) - 1)%Z then
        withChannel color Lightness
          (Some (Math_max 0 (ToNumber (lightness color) - 10)%float))
      else color in
    Some (setColors scale
            (JsArray.slice colors 0 (Some (afterIndex + 1)%Z)
             ++ [Some color]
             ++ JsArray.slice colors (afterIndex + 1) None))).

Definition POP_COLOR_recipe (paletteId scaleId : string) : Palettes -> option Palettes :=
  onScale paletteId scaleId (fun _ scale =>
    let colors := scale_colors scale in
    let namingSchemeId := scale_namingSchemeId scale in
    if (1 <? length colors)%nat || bool_decide (namingSchemeId ≠ None) then Some scale
    else Some (setColors scale (JsArray.pop colors))).

Definition DELETE_COLOR_recipe (paletteId scaleId : string) (index : Z)
  : Palettes -> option Palettes :=
  onScale paletteId scaleId (fun _ scale =>
    let colors := scale_colors scale in
    let namingSchemeId := scale_namingSchemeId scale in
    if bool_decide (namingSchemeId ≠ None) then Some scale
    else if (1 <? length colors)%nat then
      Some (setColors scale (JsArray.splice1 colors index))
    else Some scale).

(** *** Curves *)

(** [scale.colors.map(color => ({...color, [curveType]: 0}))] *)
Definition resetOffsets (curveType : CurveType) (colors : list (option Color))
  : list (option Color) :=
  (fun slot => Some (withChannel (spread slot) curveType (Some 0%float))) <$> colors.

Definition CREATE_CURVE_FROM_SCALE_recipe (eff : Effects) (paletteId scaleId : string)
    (curveType : CurveType) (ps : Palettes) : option Palettes :=
  let curveId := uniqueId eff 0 in
  match ps !! paletteId with
  | Some palette =>
      match palette_scales palette !! scaleId with
      | Some scale =>
          match JsRead.map (fun index _ => getColor (palette_curves palette) scale index)
                           (scale_colors scale) with
          | Some effective =>
              let values := (fun color => channel color curveType) <$> effective in
              let curve :=
                mkCurve curveId (scale_name scale +:+ " " +:+ CurveType_name curveType)
                        curveType values in
              let scale' :=
                setColors
                  (setScaleCurves scale
                     (withCurve (scale_curves scale) curveType (Some curveId)))
                  (resetOffsets curveType (scale_colors scale)) in
              Some (<[paletteId :=
                       setScales
                         (setCurves palette (<[curveId := curve]> (palette_curves palette)))
                         (<[scaleId := scale']> (palette_scales palette))]> ps)
          | None => None
          end
      | None => None
      end
  | None => None
  end.

Definition CHANGE_SCALE_CURVE_recipe (paletteId scaleId : string)
    (curveType : CurveType) (curveId : string) : Palettes -> option Palettes :=
  onScale paletteId scaleId (fun palette scale =>
    if stringToBoolean curveId then
      Some (setScaleCurves
              (setColors scale (resetOffsets curveType (scale_colors scale)))
              (withCurve (scale_curves scale) curveType (Some curveId)))
    else
      match JsRead.map
              (fun index slot =>
                 match getColor (palette_curves palette) scale index with
                 | Some effective =>
                     Some (Some (withChannel (spread slot) curveType
                                              (channel effective curveType)))
                 | None => None
                 end)
              (scale_colors scale) with
      | Some colors =>
          Some (setScaleCurves (setColors scale colors)
                               (withCurve (scale_curves scale) curveType None))
      | None => None
      end).

Definition APPLY_EASING_FUNCTION_recipe (paletteId curveId : string)
    (easingFunction : float -> float) (ps : Palettes) : option Palettes :=
  match ps !! paletteId with
  | Some palette =>
      match palette_curves palette !! curveId with
      | Some curve =>
          let values := curve_values curve in
          let startingPoint := JsRead.read values 0 in
          let endingPoint := JsRead.read values (Z.of_nat (length values) - 1) in
          match startingPoint, endingPoint with
          | Some startingPoint, Some endingPoint =>
              let values' :=
                imap (fun index _ =>
                        let t := (ofZ (Z.of_nat index)
                                  / ofZ (Z.of_nat (length values) - 1))%float in
                        let newValue := lerp startingPoint endingPoint (easingFunction t) in
                        Some (Math_round (newValue * 10) / 10)%float)
                     values in
              Some (<[paletteId :=
                       setCurves palette
                         (<[curveId := setValues curve values']> (palette_curves palette))]> ps)
          | _, _ => Some ps
          end
      | None => None
      end
  | None => None
  end.

(** *** Naming schemes *)

Definition CHANGE_SCALE_NAMING_SCHEME_recipe (paletteId scaleId : string)
    (namingSchemeId : option string) : Palettes -> option Palettes :=
  onScale paletteId scaleId (fun palette scale =>
    let scale1 := setNamingSchemeId scale namingSchemeId in
    match namingSchemeId with
    | None => Some scale1
    | Some id =>
        if negb (stringToBoolean id) then Some scale1
        else
          match palette_namingSchemes palette !! id with
          | Some namingScheme =>
              let names := namingScheme_names namingScheme in
              let colors := scale_colors scale in
              let lastColor := JsRead.read colors (Z.of_nat (length colors) - 1) in
              Some (setColors scale1
                      (imap (fun index _ =>
                               if (length colors <=? index)%nat then lastColor
                               else JsRead.read colors (Z.of_nat index))
                            names))
          | None => None
          end
    end).

(** *** The transitions *)

(** [target] of the transition a command takes: the commands without one
    ([UNDO], [REDO], [CREATE_PALETTE], [DUPLICATE_PALETTE]) only run their
    action; every other one names ['debouncing']. *)
Definition target (event : MachineEvent) : option StateValue :=
  match event with
  | UNDO | REDO | CREATE_PALETTE | DUPLICATE_PALETTE _ => None
  | DELETE_PALETTE _
  | CHANGE_PALETTE_NAME _ _
  | CHANGE_PALETTE_BACKGROUND_COLOR _ _
  | IMPORT_SCALES _ _ _
  | CREATE_SCALE _
  | DELETE_SCALE _ _
  | DUPLICATE_SCALE _ _
  | CHANGE_SCALE_NAME _ _ _
  | CREATE_COLOR _ _ _
  | POP_COLOR _ _
  | DELETE_COLOR _ _ _
  | CHANGE_COLOR_VALUE _ _ _ _
  | CREATE_CURVE_FROM_SCALE _ _ _
  | CREATE_NAMING_SCHEME_FROM_SCALE _ _
  | CHANGE_CURVE_NAME _ _ _
  | DELETE_CURVE _ _
  | CHANGE_SCALE_CURVE _ _ _ _
  | CHANGE_SCALE_NAMING_SCHEME _ _ _
  | CHANGE_CURVE_VALUE _ _ _ _
  | CHANGE_CURVE_VALUES _ _ _
  | CHANGE_SCALE_COLORS _ _ _
  | APPLY_EASING_FUNCTION _ _ _
  | UPDATE_NAMING_SCHEME _ _ => Some debouncing
  end.

(** What a command's recipe does to [context.palettes]. *)
Definition palettesRecipe (eff : Effects) (event : MachineEvent)
  : Palettes -> option Palettes :=
  match event with
  | CREATE_PALETTE => CREATE_PALETTE_recipe eff
  | DUPLICATE_PALETTE paletteId => DUPLICATE_PALETTE_recipe eff paletteId
  | DELETE_PALETTE paletteId => DELETE_PALETTE_recipe paletteId
  | CREATE_COLOR paletteId scaleId afterIndex =>
      CREATE_COLOR_recipe eff paletteId scaleId afterIndex
  | POP_COLOR paletteId scaleId => POP_COLOR_recipe paletteId scaleId
  | DELETE_COLOR paletteId scaleId index => DELETE_COLOR_recipe paletteId scaleId index
  | CREATE_CURVE_FROM_SCALE paletteId scaleId curveType =>
      CREATE_CURVE_FROM_SCALE_recipe eff paletteId scaleId curveType
  | CHANGE_SCALE_CURVE paletteId scaleId curveType curveId =>
      CHANGE_SCALE_CURVE_recipe paletteId scaleId curveType curveId
  | CHANGE_SCALE_NAMING_SCHEME paletteId scaleId namingSchemeId =>
      CHANGE_SCALE_NAMING_SCHEME_recipe paletteId scaleId namingSchemeId
  | APPLY_EASING_FUNCTION paletteId curveId easingFunction =>
      APPLY_EASING_FUNCTION_recipe paletteId curveId easingFunction
  | _ => restRecipe eff event
  end.

(** The [actions] of a command's transition, on the whole context. *)
Definition actions (eff : Effects) (event : MachineEvent) (c : MachineContext)
  : option MachineContext :=
  match event with
  | UNDO => Some (UNDO_recipe c)
  | REDO => Some (REDO_recipe c)
  | _ =>
      match palettesRecipe eff event (palettes c) with
      | Some ps => Some (mkContext ps (past c) (future c))
      | None => None
      end
  end.

(** The [exit] actions of a state node. *)
Definition exit (v : StateValue) (c : MachineContext) : MachineContext :=
  match v with
  | idle => idle_exit c
  | debouncing => c
  end.

(** One step of the interpreter.  The commands are transitions of the root
    node.  One with a target leaves the current state, so xstate runs that
    state's [exit] actions and then the transition's [actions], each on the
    context the one before it produced, and enters the target.  One without
    a target leaves no state and runs its [actions] only.  The delayed
    event is a transition of [debouncing] alone and has no action.  When an
    action raises, [send] raises and the state stays as it was. *)
Definition transition (eff : Effects) (st : State) (signal : Signal) : State :=
  match signal with
  | After200 =>
      match value st with
      | debouncing => mkState idle (context st)
      | idle => st
      end
  | Send event =>
      match target event with
      | Some next =>
          match actions eff event (exit (value st) (context st)) with
          | Some c => mkState next c
          | None => st
          end
      | None =>
          match actions eff event (context st) with
          | Some c => mkState (value st) c
          | None => st
          end
      end
  end.

(** [machine.initialState] *)
Definition initialState : State := mkState idle (mkContext ∅ [] []).

(** The state after a run of signals, each with the fresh values its action
    drew. *)
Definition run (signals : list (Effects * Signal)) : State :=
  foldl (fun st '(eff, signal) => transition eff st signal) initialState signals.

End Machine.

(** ** The remaining commands *)

(** Field updates of the palette, the scale and the curve. *)
Definition setPaletteName (p : Palette) (name : string) : Palette :=
  mkPalette (palette_id p) name (palette_backgroundColor p)
            (palette_scales p) (palette_curves p) (palette_namingSchemes p).

Definition setBackgroundColor (p : Palette) (backgroundColor : string) : Palette :=
  mkPalette (palette_id p) (palette_name p) backgroundColor
            (palette_scales p) (palette_curves p) (palette_namingSchemes p).

Definition setNamingSchemes (p : Palette) (ns : gmap string NamingScheme) : Palette :=
  mkPalette (palette_id p) (palette_name p) (palette_backgroundColor p)
            (palette_scales p) (palette_curves p) ns.

Definition setScaleName (s : Scale) (name : string) : Scale :=
  mkScale (scale_id s) name (scale_colors s) (scale_curves s) (scale_namingSchemeId s).

Definition setCurveName (c : Curve) (name : string) : Curve :=
  mkCurve (curve_id c) name (curve_type c) (curve_values c).

(** [context.palettes[paletteId]], rewritten by [f]. *)
Definition onPalette (paletteId : string) (f : Palette -> option Palette)
    (ps : Palettes) : option Palettes :=
  match ps !! paletteId with
  | Some palette =>
      match f palette with
      | Some palette' => Some (<[paletteId := palette']> ps)
      | None => None
      end
  | None => None
  end.

(** [context.palettes[paletteId].curves[curveId]], rewritten by [f]. *)
Definition onCurve (paletteId curveId : string) (f : Curve -> Curve)
  : Palettes -> option Palettes :=
  onPalette paletteId (fun palette =>
    match palette_curves palette !! curveId with
    | Some curve =>
        Some (setCurves palette (<[curveId := f curve]> (palette_curves palette)))
    | None => None
    end).

Definition CHANGE_PALETTE_NAME_recipe (paletteId name : string)
  : Palettes -> option Palettes :=
  onPalette paletteId (fun palette => Some (setPaletteName palette name)).

Definition CHANGE_PALETTE_BACKGROUND_COLOR_recipe (paletteId backgroundColor : string)
  : Palettes -> option Palettes :=
  onPalette paletteId (fun palette => Some (setBackgroundColor palette backgroundColor)).

(** [Object.assign(target, source)] on dictionaries: the entries of [source]
    replace those of [target] under the same key. *)
Definition Object_assign {V : Type} (target source : gmap string V) : gmap string V :=
  source ∪ target.

Definition IMPORT_SCALES_recipe (paletteId : string) (scales : gmap string Scale)
    (replace : bool) : Palettes -> option Palettes :=
  onPalette paletteId (fun palette =>
    if replace then Some (setScales palette scales)
    else Some (setScales palette (Object_assign (palette_scales palette) scales))).

Definition DELETE_SCALE_recipe (paletteId scaleId : string) : Palettes -> option Palettes :=
  onPalette paletteId (fun palette =>
    Some (setScales palette (delete scaleId (palette_scales palette)))).

Definition DUPLICATE_SCALE_recipe (eff : Effects) (paletteId scaleId : string)
  : Palettes -> option Palettes :=
  onPalette paletteId (fun palette =>
    let scaleId' := uniqueId eff 0 in
    match palette_scales palette !! scaleId with
    | Some existingScale =>
        Some (setScales palette
                (<[scaleId' :=
                     mkScale scaleId' (scale_name existingScale +:+ " (copy)")
                             (scale_colors existingScale) (scale_curves existingScale)
                             (scale_namingSchemeId existingScale)]>
                   (palette_scales palette)))
    | None => None
    end).

Definition CHANGE_SCALE_NAME_recipe (paletteId scaleId name : string)
  : Palettes -> option Palettes :=
  onScale paletteId scaleId (fun _ scale => Some (setScaleName scale name)).

(** [Object.assign(color, value)] for a [Partial<Color>]: the channels the
    value holds replace those of the color. *)
Definition assignColor (color value : Color) : Color :=
  mkColor (match hue value with Some h => Some h | None => hue color end)
          (match saturation value with Some s => Some s | None => saturation color end)
          (match lightness value with Some l => Some l | None => lightness color end).

(** [Object.assign] raises on a target that is [undefined]. *)
Definition CHANGE_COLOR_VALUE_recipe (paletteId scaleId : string) (index : Z)
    (value : Color) : Palettes -> option Palettes :=
  onScale paletteId scaleId (fun _ scale =>
    match JsRead.read (scale_colors scale) index with
    | Some color =>
        Some (setColors scale
                (<[Z.to_nat index := Some (assignColor color value)]> (scale_colors scale)))
    | None => None
    end).

Definition CREATE_NAMING_SCHEME_FROM_SCALE_recipe (eff : Effects)
    (paletteId scaleId : string) : Palettes -> option Palettes :=
  onPalette paletteId (fun palette =>
    let namingSchemeId := uniqueId eff 0 in
    match palette_scales palette !! scaleId with
    | Some scale =>
        let name := scale_name scale +:+ " naming scheme" in
        let names := imap (fun i _ => pretty i) (scale_colors scale) in
        Some (setScales
                (setNamingSchemes palette
                   (<[namingSchemeId := mkNamingScheme namingSchemeId name names]>
                      (palette_namingSchemes palette)))
                (<[scaleId := setNamingSchemeId scale (Some namingSchemeId)]>
                   (palette_scales palette)))
    | None => None
    end).

Definition CHANGE_CURVE_NAME_recipe (paletteId curveId name : string)
  : Palettes -> option Palettes :=
  onCurve paletteId curveId (fun curve => setCurveName curve name).

(** One round of [DELETE_CURVE]'s inner loop: when the scale's entry for
    [type] is the curve, every color takes the curve's value at its index
    plus its own, and the entry is deleted.  The callback reads
    [curves[curveId].values] and [color[type]], so it raises on a curve or a
    color slot that is [undefined]. *)
Definition detachDeleted (curves : gmap string Curve) (curveId : string)
    (type : CurveType) (scale : Scale) : option Scale :=
  if bool_decide (curveOf (scale_curves scale) type = Some curveId) then
    match JsRead.map
            (fun index slot =>
               match curves !! curveId, slot with
               | Some curve, Some color =>
                   Some (Some (withChannel color type
                                 (Some (ToNumber (JsRead.read (curve_values curve)
                                                              (Z.of_nat index))
                                        + ToNumber (channel color type))%float)))
               | _, _ => None
               end)
            (scale_colors scale) with
    | Some colors =>
        Some (setScaleCurves (setColors scale colors)
                             (withCurve (scale_curves scale) type None))
    | None => None
    end
  else Some scale.

(** The inner loop over [Object.entries(scale.curves)].  The entries are
    taken before the loop and each round writes its own channel and its own
    entry only, so the order of the entries does not show in the result. *)
Definition detachDeletedAll (curves : gmap string Curve) (curveId : string)
    (scale : Scale) : option Scale :=
  match detachDeleted curves curveId Hue scale with
  | Some scale1 =>
      match detachDeleted curves curveId Saturation scale1 with
      | Some scale2 => detachDeleted curves curveId Lightness scale2
      | None => None
      end
  | None => None
  end.

(** The outer loop runs over every scale of the palette; one round that
    raises ends the recipe. *)
Definition DELETE_CURVE_recipe (paletteId curveId : string) : Palettes -> option Palettes :=
  onPalette paletteId (fun palette =>
    let detach := detachDeletedAll (palette_curves palette) curveId in
    if decide (map_Forall (fun _ scale => is_Some (detach scale)) (palette_scales palette))
    then
      Some (setCurves
              (setScales palette
                 ((fun scale => default scale (detach scale)) <$> palette_scales palette))
              (delete curveId (palette_curves palette)))
    else None).

Definition CHANGE_CURVE_VALUES_recipe (paletteId curveId : string)
    (values : list (option float)) : Palettes -> option Palettes :=
  onCurve paletteId curveId (fun curve => setValues curve values).

Definition CHANGE_SCALE_COLORS_recipe (paletteId scaleId : string)
    (colors : list (option Color)) : Palettes -> option Palettes :=
  onScale paletteId scaleId (fun _ scale => Some (setColors scale colors)).

Definition UPDATE_NAMING_SCHEME_recipe (paletteId : string) (namingScheme : NamingScheme)
  : Palettes -> option Palettes :=
  onPalette paletteId (fun palette =>
    Some (setNamingSchemes palette
            (<[namingScheme_id namingScheme := namingScheme]>
               (palette_namingSchemes palette)))).

(** The recipes above as the machine's remaining recipes.  [CREATE_SCALE]
    (its name is an entry of [css-color-names.json] at a random index) and
    [CHANGE_CURVE_VALUE] (an assignment past the end of the array leaves
    holes in it) stay with [other]. *)
Definition sourceRecipes (other : Effects -> MachineEvent -> Palettes -> option Palettes)
    (eff : Effects) (event : MachineEvent) : Palettes -> option Palettes :=
  match event with
  | CHANGE_PALETTE_NAME paletteId name => CHANGE_PALETTE_NAME_recipe paletteId name
  | CHANGE_PALETTE_BACKGROUND_COLOR paletteId backgroundColor =>
      CHANGE_PALETTE_BACKGROUND_COLOR_recipe paletteId backgroundColor
  | IMPORT_SCALES paletteId scales replace => IMPORT_SCALES_recipe paletteId scales replace
  | DELETE_SCALE paletteId scaleId => DELETE_SCALE_recipe paletteId scaleId
  | DUPLICATE_SCALE paletteId scaleId => DUPLICATE_SCALE_recipe eff paletteId scaleId
  | CHANGE_SCALE_NAME paletteId scaleId name => CHANGE_SCALE_NAME_recipe paletteId scaleId name
  | CHANGE_COLOR_VALUE paletteId scaleId index value =>
      CHANGE_COLOR_VALUE_recipe paletteId scaleId index value
  | CREATE_NAMING_SCHEME_FROM_SCALE paletteId scaleId =>
      CREATE_NAMING_SCHEME_FROM_SCALE_recipe eff paletteId scaleId
  | CHANGE_CURVE_NAME paletteId curveId name => CHANGE_CURVE_NAME_recipe paletteId curveId name
  | DELETE_CURVE paletteId curveId => DELETE_CURVE_recipe paletteId curveId
  | CHANGE_CURVE_VALUES paletteId curveId values =>
      CHANGE_CURVE_VALUES_recipe paletteId curveId values
  | CHANGE_SCALE_COLORS paletteId scaleId colors =>
      CHANGE_SCALE_COLORS_recipe paletteId scaleId colors
  | UPDATE_NAMING_SCHEME paletteId namingScheme =>
      UPDATE_NAMING_SCHEME_recipe paletteId namingScheme
  | _ => other eff event
  end.

(** [event.paletteId], for the commands that carry one. *)
Definition paletteIdOf (event : MachineEvent) : option string :=
  match event with
  | CREATE_PALETTE | UNDO | REDO => None
  | DUPLICATE_PALETTE paletteId
  | DELETE_PALETTE paletteId
  | CHANGE_PALETTE_NAME paletteId _
  | IMPORT_SCALES paletteId _ _
  | CHANGE_PALETTE_BACKGROUND_COLOR paletteId _
  | CREATE_SCALE paletteId
  | DELETE_SCALE paletteId _
  | DUPLICATE_SCALE paletteId _
  | CHANGE_SCALE_NAME paletteId _ _
  | CREATE_COLOR paletteId _ _
  | POP_COLOR paletteId _
  | DELETE_COLOR paletteId _ _
  | CHANGE_COLOR_VALUE paletteId _ _ _
  | CREATE_CURVE_FROM_SCALE paletteId _ _
  | CREATE_NAMING_SCHEME_FROM_SCALE paletteId _
  | CHANGE_CURVE_NAME paletteId _ _
  | DELETE_CURVE paletteId _
  | CHANGE_SCALE_CURVE paletteId _ _ _
  | CHANGE_SCALE_NAMING_SCHEME paletteId _ _
  | CHANGE_CURVE_VALUE paletteId _ _ _
  | CHANGE_CURVE_VALUES paletteId _ _
  | CHANGE_SCALE_COLORS paletteId _ _
  | APPLY_EASING_FUNCTION paletteId _ _
  | UPDATE_NAMING_SCHEME paletteId _ => Some paletteId
  end.

(** Every entity of the document is filed under its own id. *)
Definition filedPalette (paletteId : string) (palette : Palette) : Prop :=
  palette_id palette = paletteId
  /\ (forall k s, palette_scales palette !! k = Some s -> scale_id s = k)
  /\ (forall k c, palette_curves palette !! k = Some c -> curve_id c = k)
  /\ (forall k n, palette_namingSchemes palette !! k = Some n -> namingScheme_id n = k).

Definition filedUnderIds (ps : Palettes) : Prop :=
  forall paletteId palette, ps !! paletteId = Some palette -> filedPalette paletteId palette.

(** The scales an [IMPORT_SCALES] command carries are filed under their ids. *)
Definition importFiled (event : MachineEvent) : Prop :=
  match event with
  | IMPORT_SCALES _ scales _ => forall k s, scales !! k = Some s -> scale_id s = k
  | _ => True
  end.

(** ** The color page (the [Color] component) *)

(** [x || 0] for a number: [0] when [x] is NaN or a zero, [x] otherwise. *)
Definition orZero (x : float) : float :=
  if is_nan x || is_zero x then 0%float else x.

(** What the page shows: it raises when the palette or the scale is not in
    the document, shows nothing ([null]) when [scale.colors[indexAsNumber]]
    is [undefined], and the color otherwise.  [indexAsNumber] is
    [parseInt(index, 10)], [None] standing for NaN. *)
Definition ColorPage (ps : Palettes) (paletteId scaleId : string)
    (indexAsNumber : option Z) : option (option Color) :=
  match ps !! paletteId with
  | Some palette =>
      match palette_scales palette !! scaleId with
      | Some scale =>
          match indexAsNumber with
          | Some i => Some (JsRead.read (scale_colors scale) i)
          | None => Some None
          end
      | None => None
      end
  | None => None
  end.

(** The commands the three number inputs of the page send on a change. *)
Definition onChangeHue (paletteId scaleId : string) (indexAsNumber : Z)
    (valueAsNumber : float) : MachineEvent :=
  CHANGE_COLOR_VALUE paletteId scaleId indexAsNumber
    (mkColor (Some (orZero valueAsNumber)) None None).

Definition onChangeSaturation (paletteId scaleId : string) (indexAsNumber : Z)
    (valueAsNumber : float) : MachineEvent :=
  CHANGE_COLOR_VALUE paletteId scaleId indexAsNumber
    (mkColor None (Some (orZero valueAsNumber)) None).

Definition onChangeLightness (paletteId scaleId : string) (indexAsNumber : Z)
    (valueAsNumber : float) : MachineEvent :=
  CHANGE_COLOR_VALUE paletteId scaleId indexAsNumber
    (mkColor None None (Some (orZero valueAsNumber))).

(** The input of a channel. *)
Definition onChange (t : CurveType) : string -> string -> Z -> float -> MachineEvent :=
  match t with
  | Hue => onChangeHue
  | Saturation => onChangeSaturation
  | Lightness => onChangeLightness
  end.

(** ** The export (the [ExportScales] component) *)

(** An entry of the exported object: the hex string of the only color of a
    scale, or an object with the hex strings of the colors under their
    names. *)
Inductive HexScale : Type :=
  | HexString (color : string)
  | HexRecord (colorsWithNames : gmap string string).

Section ExportScales.

(** [camelCase] of [lodash-es], and [colorToHex] and [getColor] of
    [./utils]; [getColor] can raise. *)
Variable camelCase : string -> string.
Variable colorToHex : Color -> string.
Variable getColor : gmap string Curve -> Scale -> nat -> option Color.

(** The keys that [key in {}] holds for: those an object inherits from
    [Object.prototype]. *)
Variable inherited : gset string.

(** [key in acc]: an inherited key or an own key of [acc]. *)
Definition keyIn (key : string) (acc : gmap string HexScale) : bool :=
  bool_decide (key ∈ inherited) || bool_decide (is_Some (acc !! key)).

(** The loop [while (key in acc) { i++; key = camelCase(name) + i }], run
    for [rounds] rounds at most; [None] when the key is still taken then. *)
Fixpoint freeKey (rounds : nat) (acc : gmap string HexScale) (name : string)
    (i : nat) (key : string) : option string :=
  if keyIn key acc then
    match rounds with
    | 0 => None
    | S rounds' => freeKey rounds' acc name (S i) (camelCase name +:+ pretty (S i))
    end
  else Some key.

(** The key of a scale in [acc]: the loop from [key = camelCase(scale.name)]
    and [i = 1].  The source's loop has no bound; the bound here, one round
    for each key that [in] holds for, is never reached. *)
Definition keyFor (acc : gmap string HexScale) (name : string) : option string :=
  freeKey (size inherited + size acc) acc name 1 (camelCase name).

(** The name of the color at [index]: [namingScheme.names[index]], which as
    a key is ["undefined"] past the end of the names, or [index.toString()]
    without a naming scheme. *)
Definition colorName (namingScheme : option NamingScheme) (index : nat) : string :=
  match namingScheme with
  | Some scheme => default "undefined" (namingScheme_names scheme !! index)
  | None => pretty index
  end.

(** [Object.fromEntries(colors.map((color, index) => [name, color]))]: of
    two entries of one name the later one stays. *)
Definition colorsWithNames (namingScheme : option NamingScheme) (colors : list string)
  : gmap string string :=
  foldl (fun object entry => <[entry.1 := entry.2]> object) ∅
        (imap (fun index color => (colorName namingScheme index, color)) colors).

(** What the reducer stores for a scale; it raises when [getColor] does. *)
Definition hexScale (palette : Palette) (scale : Scale) : option HexScale :=
  match JsRead.map (fun index _ => getColor (palette_curves palette) scale index)
                   (scale_colors scale) with
  | Some effective =>
      let colors := colorToHex <$> effective in
      let namingScheme :=
        palette_namingSchemes palette !! default "" (scale_namingSchemeId scale) in
      Some (match colors with
            | [color] => HexString color
            | _ => HexRecord (colorsWithNames namingScheme colors)
            end)
  | None => None
  end.

(** One call of the reducer. *)
Definition hexScalesStep (palette : Palette) (acc : gmap string HexScale) (scale : Scale)
  : option (gmap string HexScale) :=
  match keyFor acc (scale_name scale) with
  | Some key =>
      match hexScale palette scale with
      | Some entry => Some (<[key := entry]> acc)
      | None => None
      end
  | None => None
  end.

(** [hexScales]: the reduce over [values], which is
    [Object.values(palette.scales)] in the order the engine lists them. *)
Definition hexScales (palette : Palette) (values : list Scale)
  : option (gmap string HexScale) :=
  foldl (fun acc scale => acc ≫= fun acc => hexScalesStep palette acc scale)
        (Some ∅) values.

End ExportScales.

(** ** Observations and sample documents *)

(** The colors of a scale of the document. *)
Definition colorsAt (ps : Palettes) (paletteId scaleId : string)
  : option (list (option Color)) :=
  match ps !! paletteId with
  | Some palette => scale_colors <$> palette_scales palette !! scaleId
  | None => None
  end.

(** The effective color at an index of a scale of the document. *)
Definition effectiveColorAt (ps : Palettes) (paletteId scaleId : string) (index : nat)
  : option Color :=
  match ps !! paletteId with
  | Some palette =>
      match palette_scales palette !! scaleId with
      | Some scale => getColor (palette_curves palette) scale index
      | None => None
      end
  | None => None
  end.

(** The values of a curve of the document. *)
Definition valuesAt (ps : Palettes) (paletteId curveId : string)
  : option (list (option float)) :=
  match ps !! paletteId with
  | Some palette => curve_values <$> palette_curves palette !! curveId
  | None => None
  end.

Module Sample.

(** Stand-ins for the imports of the machine. *)
Definition hexToColor (_ : option string) : Color :=
  mkColor (Some 0%float) (Some 0%float) (Some 0%float).

(** The linear interpolation [(1 - t) * start + t * end]. *)
Definition lerp (start end_ t : float) : float := ((1 - t) * start + t * end_)%float.

(** The linear easing function. *)
Definition linear (t : float) : float := t.

Definition effects : Effects :=
  mkEffects (fun n => match n with 0 => "new" | S _ => "new scale" end)
            (fun min _ => min).

Definition rest (_ : Effects) (_ : MachineEvent) (ps : Palettes) : option Palettes :=
  Some ps.

Definition exampleScales : list (string * ExampleScale) :=
  [("gray", HexArray ["#111111"; "#222222"; "#333333"])].

(** A session from the initial state: a palette is created (it is ["new"],
    its scale ["new scale"] has three colors), a color is deleted and the
    edit settles, a second color is deleted and the edit settles, and the
    second deletion is undone. *)
Definition session : list (Effects * Signal) :=
  [(effects, Send CREATE_PALETTE);
   (effects, Send (DELETE_COLOR "new" "new scale" 0));
   (effects, After200);
   (effects, Send (DELETE_COLOR "new" "new scale" 0));
   (effects, After200);
   (effects, Send UNDO)].

Definition hsl (h s l : float) : Color := mkColor (Some h) (Some s) (Some l).

(** A palette ["p"] with one scale ["s"]. *)
Definition scale (colors : list (option Color)) (curves : ScaleCurves) : Scale :=
  mkScale "s" "gray" colors curves None.

Definition palette (name : string) (s : Scale) (curves : gmap string Curve)
    (namingSchemes : gmap string NamingScheme) : Palette :=
  mkPalette "p" name "#ffffff" {[ "s" := s ]} curves namingSchemes.

Definition doc (name : string) (colors : list (option Color)) : Palettes :=
  {[ "p" := palette name (scale colors noCurves) ∅ ∅ ]}.

(** A scale of three colors of lightness 10, 20 and 30. *)
Definition ramp : list (option Color) :=
  [Some (hsl 0 0 10); Some (hsl 0 0 20); Some (hsl 0 0 30)].

(** A palette whose scale has one color of lightness 10 and which owns a
    lightness curve ["c"] of value 0, attached to no scale. *)
Definition withFreeCurve : Palettes :=
  {[ "p" := palette "A" (scale [Some (hsl 0 0 10)] noCurves)
                    {[ "c" := mkCurve "c" "flat" Lightness [Some 0%float] ]} ∅ ]}.

(** A palette whose scale of one color has the lightness curve ["c"], of
    the single value 5. *)
Definition withSingleValueCurve : Palettes :=
  {[ "p" := palette "A"
                    (scale [Some (hsl 0 0 0)] (mkScaleCurves None None (Some "c")))
                    {[ "c" := mkCurve "c" "gray lightness" Lightness [Some 5%float] ]} ∅ ]}.

(** A palette whose scale has two colors and which owns a naming scheme
    ["n"] of three names. *)
Definition withNamingScheme : Palettes :=
  {[ "p" := palette "A" (scale [Some (hsl 0 0 10); Some (hsl 0 0 20)] noCurves) ∅
                    {[ "n" := mkNamingScheme "n" "steps" ["0"; "1"; "2"] ]} ]}.

(** The same palette with the naming scheme attached to the scale. *)
Definition named : Palettes :=
  {[ "p" := palette "A"
                    (mkScale "s" "gray"
                             [Some (hsl 0 0 10); Some (hsl 0 0 20); Some (hsl 0 0 20)]
                             noCurves (Some "n"))
                    ∅ {[ "n" := mkNamingScheme "n" "steps" ["0"; "1"; "2"] ]} ]}.

(** Three documents that differ in the palette's name, and a context past
    two checkpoints and one [UNDO]: ["A"] is the older document, ["B"] the
    present one, ["C"] the one the [UNDO] left. *)
Definition A : Palettes := doc "A" ramp.
Definition B : Palettes := doc "B" ramp.
Definition C : Palettes := doc "C" ramp.
Definition undone : MachineContext := mkContext B [A] [C].

(** The ramp without its first color. *)
Definition shortRamp : list (option Color) :=
  [Some (hsl 0 0 20); Some (hsl 0 0 30)].

(** A recipe that raises, for the commands that are left open. *)
Definition raising (_ : Effects) (_ : MachineEvent) (_ : Palettes) : option Palettes :=
  None.

(** A palette that owns a curve ["c"] without values. *)
Definition withEmptyCurve : Palettes :=
  {[ "p" := palette "A" (scale [] noCurves)
                    {[ "c" := mkCurve "c" "flat" Lightness [] ]} ∅ ]}.

(** A palette whose scale has no colors and which owns a naming scheme
    ["n"] of three names. *)
Definition emptyWithNamingScheme : Palettes :=
  {[ "p" := palette "A" (scale [] noCurves) ∅
                    {[ "n" := mkNamingScheme "n" "steps" ["0"; "1"; "2"] ]} ]}.

(** The scales of an import: one scale ["t"] without colors. *)
Definition imported : gmap string Scale :=
  {[ "t" := mkScale "t" "blue" [] noCurves None ]}.

(** Stand-ins for the imports of the export: [camelCase] leaves a name as
    it is, [colorToHex] writes the lightness only. *)
Definition camelCase (name : string) : string := name.

Definition colorToHex (color : Color) : string :=
  match lightness color with
  | Some l => if (l <? 15)%float then "#1a1a1a" else if (l <? 25)%float then "#333333"
              else "#4d4d4d"
  | None => "#000000"
  end.

(** A palette with three scales of the names ["gray"], ["gray"] and
    ["toString"]. *)
Definition grays : Palette :=
  mkPalette "p" "A" "#ffffff"
            {[ "s" := scale ramp noCurves;
               "t" := mkScale "t" "gray" [Some (hsl 0 0 10)] noCurves None;
               "u" := mkScale "u" "toString" ramp noCurves None ]}
            ∅ ∅.

Definition graysValues : list Scale :=
  [scale ramp noCurves;
   mkScale "t" "gray" [Some (hsl 0 0 10)] noCurves None;
   mkScale "u" "toString" ramp noCurves None].

(** Two of the keys that objects inherit. *)
Definition inherited : gset string := {[ "constructor"; "toString" ]}.

(** A palette that owns a curve ["c"] of the values 0, 7 and 10. *)
Definition withBentCurve : Palettes :=
  {[ "p" := palette "A" (scale ramp noCurves)
                    {[ "c" := mkCurve "c" "bent" Lightness
                                      [Some 0%float; Some 7%float; Some 10%float] ]} ∅ ]}.

(** The sample session followed by an import into the palette. *)
Definition importSession : list (Effects * Signal) :=
  session ++ [(effects, Send (IMPORT_SCALES "new" imported false))].

End Sample.

(** The colors of the sample palette's scale after a session. *)
Definition colorsAfter (signals : list (Effects * Signal)) : option (list (option Color)) :=
  colorsAt
    (palettes
       (context (run Sample.hexToColor Sample.lerp ["black"] Sample.exampleScales
                     Sample.rest signals)))
    "new" "new scale".

(** * Properties *)

(** ** Arrays *)

Section ArrayFacts.
Context {A : Type}.
Implicit Types (a : list A) (x : A).

Lemma relative_nonneg len (k : Z) :
  (0 <= k)%Z -> JsArray.relative len k = Nat.min (Z.to_nat k) len.
Proof.
  intros Hk. unfold JsArray.relative.
  destruct (Z.ltb_spec k 0); lia.
Qed.

Lemma relative_neg len (k : Z) :
  (k < 0)%Z -> JsArray.relative len k = len - Z.to_nat (- k).
Proof.
  intros Hk. unfold JsArray.relative.
  destruct (Z.ltb_spec k 0); lia.
Qed.

Lemma get_nat a (i : nat) : JsArray.get a (Z.of_nat i) = a !! i.
Proof.
  unfold JsArray.get. destruct (Z.ltb_spec (Z.of_nat i) 0); [lia |].
  by rewrite Nat2Z.id.
Qed.

Lemma get_last a x : JsArray.get (a ++ [x]) (Z.of_nat (length (a ++ [x])) - 1) = Some x.
Proof.
  rewrite length_app. simpl.
  replace (Z.of_nat (length a + 1) - 1)%Z with (Z.of_nat (length a)) by lia.
  rewrite get_nat. by rewrite lookup_app_r, Nat.sub_diag.
Qed.

(** [a.slice(0, a.length - 1)] drops the last element. *)
Lemma slice_init a x :
  JsArray.slice (a ++ [x]) 0 (Some (Z.of_nat (length (a ++ [x])) - 1)%Z) = a.
Proof.
  unfold JsArray.slice. rewrite length_app. simpl.
  rewrite !relative_nonneg by lia. simpl.
  replace (Nat.min (Z.to_nat (Z.of_nat (length a + 1) - 1)) (length a + 1) - 0)
    with (length a) by lia.
  rewrite drop_0. by rewrite take_app_length.
Qed.

(** [a.slice(1)] drops the first element. *)
Lemma slice_tail a x : JsArray.slice (x :: a) 1 None = a.
Proof.
  unfold JsArray.slice. rewrite relative_nonneg by lia. simpl.
  replace (Nat.min (Pos.to_nat 1) (S (length a))) with 1 by lia.
  simpl. rewrite Nat.sub_0_r. by rewrite firstn_all.
Qed.

(** [a.slice(-n)] keeps the last [n] elements. *)
Lemma slice_last a (n : nat) :
  0 < n -> JsArray.slice a (- Z.of_nat n) None = drop (length a - n) a.
Proof.
  intros Hn. unfold JsArray.slice.
  rewrite relative_neg by lia.
  replace (Z.to_nat (- - Z.of_nat n)) with n by lia.
  apply take_ge. rewrite length_drop. lia.
Qed.

Lemma slice_empty (start : Z) (end_ : option Z) : JsArray.slice (@nil A) start end_ = [].
Proof. unfold JsArray.slice. rewrite drop_nil. apply take_nil. Qed.

(** [a.splice(i, 1)] removes at most one element. *)
Lemma length_splice1 a (i : Z) :
  1 < length a -> 1 <= length (JsArray.splice1 a i).
Proof.
  intros Hlen. unfold JsArray.splice1.
  rewrite length_app, length_take, length_drop. lia.
Qed.

End ArrayFacts.

Lemma snoc_of_nonempty {A : Type} (a : list A) :
  a <> [] -> exists init x, a = init ++ [x].
Proof.
  induction a as [| x a IH] using rev_ind; [done |]. intros _. by exists a, x.
Qed.

Lemma read_nat {A : Type} (a : list (option A)) (i : nat) (slot : option A) :
  a !! i = Some slot -> JsRead.read a (Z.of_nat i) = slot.
Proof. intros H. unfold JsRead.read. by rewrite get_nat, H. Qed.

(** [JsRead.map] succeeds exactly when every callback does, and then holds
    the callbacks' answers in order. *)
Lemma mapFrom_Some {A B : Type} (f : nat -> A -> option B) (a : list A) :
  forall (i : nat) (bs : list B),
    JsRead.mapFrom f i a = Some bs <->
    length bs = length a /\
    (forall k x, a !! k = Some x -> exists y, f (i + k) x = Some y /\ bs !! k = Some y).
Proof.
  induction a as [| x a IH]; intros i bs; simpl.
  - split.
    + intros [= <-]. split; [done |]. intros k x0 Hk. by rewrite lookup_nil in Hk.
    + intros [Hlen _]. destruct bs; [done | discriminate].
  - split.
    + destruct (f i x) as [y |] eqn:Hy; [| discriminate].
      destruct (JsRead.mapFrom f (S i) a) as [ys |] eqn:Hys; [| discriminate].
      intros [= <-]. apply IH in Hys as [Hlen Hall].
      split; [simpl; lia |].
      intros [| k] x0 Hk; simpl in *.
      * injection Hk as <-. exists y. by rewrite Nat.add_0_r.
      * destruct (Hall k x0 Hk) as (y0 & Hf & Hb).
        exists y0. split; [| done]. by replace (i + S k) with (S i + k) by lia.
    + intros [Hlen Hall]. destruct bs as [| y ys]; [discriminate |].
      destruct (Hall 0 x eq_refl) as (y0 & Hf & Hb). simpl in Hb. injection Hb as <-.
      rewrite Nat.add_0_r in Hf. rewrite Hf.
      assert (Hys : JsRead.mapFrom f (S i) a = Some ys).
      { apply IH. split; [simpl in Hlen; lia |].
        intros k x0 Hk. destruct (Hall (S k) x0 Hk) as (y1 & Hf1 & Hb1).
        exists y1. split; [| done]. by replace (S i + k) with (i + S k) by lia. }
      by rewrite Hys.
Qed.

Lemma map_Some {A B : Type} (f : nat -> A -> option B) (a : list A) (bs : list B) :
  JsRead.map f a = Some bs <->
  length bs = length a /\
  (forall k x, a !! k = Some x -> exists y, f k x = Some y /\ bs !! k = Some y).
Proof. unfold JsRead.map. by rewrite mapFrom_Some. Qed.

(** When every callback answers, so does the map. *)
Lemma map_is_Some {A B : Type} (f : nat -> A -> option B) (a : list A) :
  (forall k x, a !! k = Some x -> is_Some (f k x)) -> is_Some (JsRead.map f a).
Proof.
  unfold JsRead.map.
  assert (Hfrom : forall i, (forall k x, a !! k = Some x -> is_Some (f (i + k) x)) ->
                            is_Some (JsRead.mapFrom f i a)).
  { induction a as [| x a IH]; intros i Hall; simpl; [by eexists |].
    destruct (Hall 0 x eq_refl) as [y Hy]. rewrite Nat.add_0_r in Hy. rewrite Hy.
    destruct (IH (S i)) as [ys Hys].
    { intros k x0 Hk. replace (S i + k) with (i + S k) by lia. apply (Hall (S k) x0 Hk). }
    rewrite Hys. by eexists. }
  intros Hall. apply Hfrom. intros k x Hk. by apply Hall.
Qed.

(** ** The history stacks *)

Lemma UNDO_recipe_empty (c : MachineContext) : past c = [] -> UNDO_recipe c = c.
Proof. intros H. unfold UNDO_recipe. by rewrite H. Qed.

Lemma UNDO_recipe_push (c : MachineContext) (earlier : list Palettes) (present : Palettes) :
  past c = earlier ++ [present] ->
  UNDO_recipe c = mkContext present earlier (future c ++ [palettes c]).
Proof.
  intros H. unfold UNDO_recipe. rewrite H.
  rewrite get_last, slice_init.
  rewrite length_app. simpl.
  by replace (0 <? length earlier + 1)%nat with true by (symmetry; apply Nat.ltb_lt; lia).
Qed.

Lemma REDO_recipe_empty (c : MachineContext) : future c = [] -> REDO_recipe c = c.
Proof. intros H. unfold REDO_recipe. by rewrite H. Qed.

Lemma REDO_recipe_shift (c : MachineContext) (present : Palettes) (later : list Palettes) :
  future c = present :: later ->
  REDO_recipe c = mkContext present (past c ++ [palettes c]) later.
Proof.
  intros H. unfold REDO_recipe. rewrite H. simpl.
  by rewrite slice_tail.
Qed.

(** The checkpoint keeps the last 25 snapshots of [past] with the present
    document appended. *)
Lemma idle_exit_past (c : MachineContext) :
  past (idle_exit c) = drop (length (past c) + 1 - 25) (past c ++ [palettes c]).
Proof.
  unfold idle_exit, JsArray.push. cbn [past].
  pose proof (slice_last (past c ++ [palettes c]) 25) as H.
  rewrite length_app in H. simpl in H. apply H. lia.
Qed.

Section History.

Variable hexToColor : option string -> Color.
Variable lerp : float -> float -> float -> float.
Variable cssColorNames : list string.
Variable exampleScales : list (string * ExampleScale).
Variable restRecipe : Effects -> MachineEvent -> Palettes -> option Palettes.

Local Abbreviation act :=
  (actions hexToColor lerp cssColorNames exampleScales restRecipe).
Local Abbreviation step :=
  (transition hexToColor lerp cssColorNames exampleScales restRecipe).
Local Abbreviation runs :=
  (run hexToColor lerp cssColorNames exampleScales restRecipe).

Lemma transition_UNDO eff st :
  step eff st (Send UNDO) = mkState (value st) (UNDO_recipe (context st)).
Proof. reflexivity. Qed.

Lemma transition_REDO eff st :
  step eff st (Send REDO) = mkState (value st) (REDO_recipe (context st)).
Proof. reflexivity. Qed.

(** Only [UNDO] and [REDO] write the stacks in their action. *)
Lemma actions_stacks eff event c c' :
  event <> UNDO -> event <> REDO ->
  act eff event c = Some c' ->
  past c' = past c /\ future c' = future c.
Proof.
  intros Hu Hr. unfold actions.
  destruct event; try congruence;
    (destruct (palettesRecipe _ _ _ _ _ _ _ _) as [ps |]; [| discriminate];
     by intros [= <-]).
Qed.

(** C1. [UNDO] with a non-empty [past], followed at once by [REDO], makes
    the first entry of the old [future] the document, and the document from
    before the [UNDO] only when [future] was empty: [UNDO] pushes the present
    document behind the entries [future] already holds and [REDO] takes
    [future[0]]. *)
Theorem undo_then_redo_takes_first_future eff1 eff2 (st : State) :
  past (context st) <> [] ->
  palettes (context (step eff2 (step eff1 st (Send UNDO)) (Send REDO)))
  = default (palettes (context st)) (head (future (context st))).
Proof.
  intros Hpast. rewrite transition_UNDO, transition_REDO. cbn [context].
  destruct (snoc_of_nonempty _ Hpast) as (ps & p0 & Hp).
  rewrite (UNDO_recipe_push _ ps p0 Hp).
  destruct (future (context st)) as [| f fs] eqn:Hf; cbn [head default].
  - by rewrite (REDO_recipe_shift _ (palettes (context st)) []).
  - by rewrite (REDO_recipe_shift _ f (fs ++ [palettes (context st)])).
Qed.

(** *** The debounce checkpoint *)

Lemma target_Some_not_history event next :
  target event = Some next -> next = debouncing /\ event <> UNDO /\ event <> REDO.
Proof. destruct event; simpl; intros [= <-] || discriminate; done. Qed.

Lemma actions_palettes eff event c :
  event <> UNDO -> event <> REDO ->
  act eff event c
  = (fun ps => mkContext ps (past c) (future c))
      <$> palettesRecipe hexToColor lerp cssColorNames exampleScales restRecipe
            eff event (palettes c).
Proof.
  intros Hu Hr. unfold actions.
  destruct event; try congruence;
    by destruct (palettesRecipe _ _ _ _ _ _ _ _).
Qed.

(** C3. The checkpoint is the [exit] action of [idle]: it runs on the
    transition from [idle] to [debouncing] that a command with a target
    takes, before the command's own action, so the snapshot pushed onto
    [past] is the document from before the edit; [past] keeps its last 25
    entries and [future] is cleared.  A command received in [debouncing],
    a command without a target and the delayed transition from [debouncing]
    back to [idle] run no checkpoint. *)
Theorem checkpoint_on_leaving_idle eff (c : MachineContext) :
  (forall event ps',
      target event = Some debouncing ->
      palettesRecipe hexToColor lerp cssColorNames exampleScales restRecipe
        eff event (palettes c) = Some ps' ->
      step eff (mkState idle c) (Send event)
      = mkState debouncing
          (mkContext ps' (drop (length (past c) + 1 - 25) (past c ++ [palettes c])) []))
  /\ (forall event,
        target event = Some debouncing ->
        step eff (mkState debouncing c) (Send event)
        = mkState debouncing (default c (act eff event c)))
  /\ (forall v event,
        target event = None ->
        step eff (mkState v c) (Send event)
        = mkState v (default c (act eff event c)))
  /\ (forall v, step eff (mkState v c) After200 = mkState idle c).
Proof.
  repeat split.
  - intros event ps' Ht Hps.
    destruct (target_Some_not_history _ _ Ht) as (_ & Hu & Hr).
    unfold transition. rewrite Ht. cbn [value context exit].
    rewrite (actions_palettes _ _ _ Hu Hr). cbn [palettes idle_exit].
    rewrite Hps. cbn [fmap option_fmap option_map].
    by rewrite idle_exit_past.
  - intros event Ht. unfold transition. rewrite Ht. cbn [value context exit].
    by destruct (act eff event c).
  - intros v event Ht. unfold transition. rewrite Ht. cbn [value context].
    by destruct (act eff event c).
  - by intros [].
Qed.

(** *** The cap on [past] *)

Lemma UNDO_recipe_lengths c :
  length (past (UNDO_recipe c)) + length (future (UNDO_recipe c))
  = length (past c) + length (future c).
Proof.
  destruct (decide (past c = [])) as [He | Hne].
  - by rewrite UNDO_recipe_empty.
  - destruct (snoc_of_nonempty _ Hne) as (ps & p0 & Hp).
    rewrite (UNDO_recipe_push _ ps p0 Hp), Hp. cbn [past future].
    rewrite !length_app. simpl. lia.
Qed.

Lemma REDO_recipe_lengths c :
  length (past (REDO_recipe c)) + length (future (REDO_recipe c))
  = length (past c) + length (future c).
Proof.
  destruct (future c) as [| f fs] eqn:Hf.
  - by rewrite REDO_recipe_empty, Hf.
  - rewrite (REDO_recipe_shift _ f fs Hf). cbn [past future].
    rewrite !length_app. simpl. lia.
Qed.

Lemma idle_exit_lengths c :
  length (past (idle_exit c)) + length (future (idle_exit c)) <= 25.
Proof.
  rewrite idle_exit_past. cbn [idle_exit future].
  rewrite length_drop, length_app. simpl. lia.
Qed.

(** Every step keeps the two stacks within 25 snapshots in total. *)
Lemma transition_stacks eff st signal :
  length (past (context st)) + length (future (context st)) <= 25 ->
  length (past (context (step eff st signal)))
  + length (future (context (step eff st signal))) <= 25.
Proof.
  intros Hinv. destruct signal as [event |].
  - unfold transition.
    destruct (target event) as [next |] eqn:Ht.
    + destruct (target_Some_not_history _ _ Ht) as (_ & Hu & Hr).
      destruct (act eff event _) as [c' |] eqn:Hc; [| done].
      apply (actions_stacks _ _ _ _ Hu Hr) in Hc as [Hp Hf]. cbn [context].
      rewrite Hp, Hf.
      destruct (value st); cbn [exit]; [apply idle_exit_lengths | done].
    + destruct event; try discriminate Ht.
      * destruct (act eff CREATE_PALETTE _) as [c' |] eqn:Hc; [| done].
        apply actions_stacks in Hc as [Hp Hf]; [| done ..]. cbn [context].
        by rewrite Hp, Hf.
      * destruct (act eff (DUPLICATE_PALETTE _) _) as [c' |] eqn:Hc; [| done].
        apply actions_stacks in Hc as [Hp Hf]; [| done ..]. cbn [context].
        by rewrite Hp, Hf.
      * cbn [actions context]. by rewrite UNDO_recipe_lengths.
      * cbn [actions context]. by rewrite REDO_recipe_lengths.
  - simpl. by destruct (value st).
Qed.

Lemma run_snoc signals eff signal :
  runs (signals ++ [(eff, signal)]) = step eff (runs signals) signal.
Proof. unfold run. by rewrite foldl_snoc. Qed.

Lemma run_stacks signals :
  length (past (context (runs signals))) + length (future (context (runs signals))) <= 25.
Proof.
  induction signals as [| [eff signal] signals IH] using rev_ind.
  - simpl. lia.
  - rewrite run_snoc. by apply transition_stacks.
Qed.

(** C4. After any run of commands, delayed transitions, [UNDO]s and [REDO]s
    from the initial context, [past] holds at most 25 snapshots; and the
    checkpoint drops the snapshots beyond the cap from the front of [past],
    where the oldest ones are. *)
Theorem past_never_exceeds_25 :
  (forall signals, length (past (context (runs signals))) <= 25)
  /\ (forall c, exists evicted,
         past c ++ [palettes c] = evicted ++ past (idle_exit c)
         /\ length evicted = length (past c) + 1 - 25).
Proof.
  split.
  - intros signals. pose proof (run_stacks signals). lia.
  - intros c. exists (take (length (past c) + 1 - 25) (past c ++ [palettes c])).
    rewrite idle_exit_past, take_drop. split; [done |].
    rewrite length_take, length_app. simpl. lia.
Qed.

(** *** Palette commands *)

(** C7. [CREATE_PALETTE] and [DUPLICATE_PALETTE] have no target: they leave
    the state and both stacks as they are and write the document at once
    ([DUPLICATE_PALETTE] of a palette that does not exist raises and writes
    nothing).
    [DELETE_PALETTE] names ['debouncing'] like the edit commands: it always
    ends in [debouncing], and leaving [idle] it runs the checkpoint on the
    document from before the deletion. *)
Theorem palette_commands_and_debouncing eff (st : State) :
  (value (step eff st (Send CREATE_PALETTE)) = value st
   /\ past (context (step eff st (Send CREATE_PALETTE))) = past (context st)
   /\ future (context (step eff st (Send CREATE_PALETTE))) = future (context st)
   /\ CREATE_PALETTE_recipe hexToColor exampleScales eff (palettes (context st))
      = Some (palettes (context (step eff st (Send CREATE_PALETTE)))))
  /\ (forall paletteId,
        value (step eff st (Send (DUPLICATE_PALETTE paletteId))) = value st
        /\ past (context (step eff st (Send (DUPLICATE_PALETTE paletteId))))
           = past (context st)
        /\ future (context (step eff st (Send (DUPLICATE_PALETTE paletteId))))
           = future (context st)
        /\ palettes (context (step eff st (Send (DUPLICATE_PALETTE paletteId))))
           = default (palettes (context st))
                     (DUPLICATE_PALETTE_recipe eff paletteId (palettes (context st))))
  /\ (forall paletteId,
        step eff st (Send (DELETE_PALETTE paletteId))
        = mkState debouncing
            (mkContext (delete paletteId (palettes (context st)))
                       (past (exit (value st) (context st)))
                       (future (exit (value st) (context st))))).
Proof.
  split; [| split].
  - unfold transition.
    cbn [target actions palettesRecipe CREATE_PALETTE_recipe value context
         palettes past future].
    done.
  - intros paletteId. unfold transition.
    cbn [target actions palettesRecipe].
    by destruct (DUPLICATE_PALETTE_recipe _ _ _).
  - intros paletteId. unfold transition.
    cbn [target actions palettesRecipe DELETE_PALETTE_recipe].
    by destruct (value st).
Qed.

End History.

(** ** Commands on a scale *)

Lemma setScales_same (p : Palette) : setScales p (palette_scales p) = p.
Proof. by destruct p. Qed.

Lemma withChannel_same (c : Color) (t : CurveType) : withChannel c t (channel c t) = c.
Proof. by destruct c, t. Qed.

Lemma channel_withChannel (c : Color) (t t' : CurveType) (v : option float) :
  channel (withChannel c t v) t' = if decide (t = t') then v else channel c t'.
Proof. by destruct t, t'. Qed.

Lemma curveOf_withCurve (cs : ScaleCurves) (t t' : CurveType) (id : option string) :
  curveOf (withCurve cs t id) t' = if decide (t = t') then id else curveOf cs t'.
Proof. by destruct t, t'. Qed.

Lemma onScale_Some paletteId scaleId f (ps : Palettes) palette scale scale' :
  ps !! paletteId = Some palette ->
  palette_scales palette !! scaleId = Some scale ->
  f palette scale = Some scale' ->
  onScale paletteId scaleId f ps
  = Some (<[paletteId := setScales palette
                           (<[scaleId := scale']> (palette_scales palette))]> ps).
Proof. intros Hp Hs Hf. unfold onScale. by rewrite Hp, Hs, Hf. Qed.

(** A recipe that hands the scale back leaves the document as it was. *)
Lemma onScale_unchanged paletteId scaleId f (ps : Palettes) palette scale :
  ps !! paletteId = Some palette ->
  palette_scales palette !! scaleId = Some scale ->
  f palette scale = Some scale ->
  onScale paletteId scaleId f ps = Some ps.
Proof.
  intros Hp Hs Hf. rewrite (onScale_Some _ _ _ _ _ _ _ Hp Hs Hf).
  by rewrite (insert_id _ _ _ Hs), setScales_same, (insert_id _ _ _ Hp).
Qed.

Section Colors.

Variable hexToColor : option string -> Color.
Variable cssColorNames : list string.

(** Both commands refuse when a naming scheme is attached. *)
Lemma POP_COLOR_naming_scheme paletteId scaleId (ps : Palettes) palette scale :
  ps !! paletteId = Some palette ->
  palette_scales palette !! scaleId = Some scale ->
  scale_namingSchemeId scale <> None ->
  POP_COLOR_recipe paletteId scaleId ps = Some ps.
Proof.
  intros Hp Hs Hn. apply (onScale_unchanged _ _ _ _ _ _ Hp Hs). cbv beta zeta.
  rewrite (bool_decide_eq_true_2 _ Hn). by rewrite orb_true_r.
Qed.

Lemma DELETE_COLOR_naming_scheme paletteId scaleId index (ps : Palettes) palette scale :
  ps !! paletteId = Some palette ->
  palette_scales palette !! scaleId = Some scale ->
  scale_namingSchemeId scale <> None ->
  DELETE_COLOR_recipe paletteId scaleId index ps = Some ps.
Proof.
  intros Hp Hs Hn. apply (onScale_unchanged _ _ _ _ _ _ Hp Hs). cbv beta zeta.
  by rewrite (bool_decide_eq_true_2 _ Hn).
Qed.

(** X26. [DELETE_COLOR] keeps a last color, whatever the index and with or
    without a naming scheme: a scale of one color is left as it is, and a
    longer one loses at most one. *)
Lemma DELETE_COLOR_floor paletteId scaleId index (ps : Palettes) palette scale :
  ps !! paletteId = Some palette ->
  palette_scales palette !! scaleId = Some scale ->
  1 <= length (scale_colors scale) ->
  exists scale',
    DELETE_COLOR_recipe paletteId scaleId index ps
    = Some (<[paletteId := setScales palette
                             (<[scaleId := scale']> (palette_scales palette))]> ps)
    /\ 1 <= length (scale_colors scale')
    /\ (length (scale_colors scale) = 1 -> scale' = scale).
Proof.
  intros Hp Hs Hlen. unfold DELETE_COLOR_recipe.
  destruct (bool_decide (scale_namingSchemeId scale <> None)) eqn:Hn.
  - exists scale. rewrite (onScale_Some _ _ _ _ _ scale scale Hp Hs); [done |].
    cbv beta zeta. by rewrite Hn.
  - destruct (Nat.ltb_spec 1 (length (scale_colors scale))) as [Hlt | Hge].
    + exists (setColors scale (JsArray.splice1 (scale_colors scale) index)).
      rewrite (onScale_Some _ _ _ _ _ scale
                 (setColors scale (JsArray.splice1 (scale_colors scale) index)) Hp Hs).
      * split; [done |]. split; [by apply length_splice1 | lia].
      * cbv beta zeta. rewrite Hn.
        by destruct (Nat.ltb_spec 1 (length (scale_colors scale))); [| lia].
    + exists scale. rewrite (onScale_Some _ _ _ _ _ scale scale Hp Hs).
      * done.
      * cbv beta zeta. rewrite Hn.
        by destruct (Nat.ltb_spec 1 (length (scale_colors scale))); [lia |].
Qed.

(** [POP_COLOR] returns early on a scale of two or more colors. *)
Lemma POP_COLOR_longer paletteId scaleId (ps : Palettes) palette scale :
  ps !! paletteId = Some palette ->
  palette_scales palette !! scaleId = Some scale ->
  1 < length (scale_colors scale) ->
  POP_COLOR_recipe paletteId scaleId ps = Some ps.
Proof.
  intros Hp Hs Hlen. apply (onScale_unchanged _ _ _ _ _ _ Hp Hs). cbv beta zeta.
  by destruct (Nat.ltb_spec 1 (length (scale_colors scale))); [| lia].
Qed.

(** C2. On a scale with exactly one color and no naming scheme,
    [POP_COLOR] removes that color: its guard returns when the scale has
    more than one color and pops otherwise, so the scale is left with an
    empty color array. *)
Theorem POP_COLOR_empties_single_color_scale
    paletteId scaleId (ps : Palettes) palette scale color :
  ps !! paletteId = Some palette ->
  palette_scales palette !! scaleId = Some scale ->
  scale_colors scale = [color] ->
  scale_namingSchemeId scale = None ->
  POP_COLOR_recipe paletteId scaleId ps
  = Some (<[paletteId := setScales palette
                           (<[scaleId := setColors scale []]> (palette_scales palette))]> ps).
Proof.
  intros Hp Hs Hc Hn. apply (onScale_Some _ _ _ _ _ _ _ Hp Hs). cbv beta zeta.
  by rewrite Hc, Hn.
Qed.

Lemma read_nil {A : Type} (i : Z) : JsRead.read (@nil (option A)) i = None.
Proof. unfold JsRead.read, JsArray.get. by destruct (i <? 0)%Z. Qed.

(** C6. On a scale with no color, [CREATE_COLOR] inserts the object that
    [{...undefined}] makes, which has no hue and no saturation (and, when
    [afterIndex] is null, a lightness of NaN): the object is truthy, so the
    branch that draws a CSS color name is never taken and [hexToColor] is
    never called. *)
Theorem CREATE_COLOR_on_empty_scale
    eff paletteId scaleId afterIndex (ps : Palettes) palette scale :
  ps !! paletteId = Some palette ->
  palette_scales palette !! scaleId = Some scale ->
  scale_colors scale = [] ->
  exists color,
    CREATE_COLOR_recipe hexToColor cssColorNames eff paletteId scaleId afterIndex ps
    = Some (<[paletteId := setScales palette
                             (<[scaleId := setColors scale [Some color]]>
                                (palette_scales palette))]> ps)
    /\ hue color = None
    /\ saturation color = None
    /\ (afterIndex = None -> lightness color = Some nan).
Proof.
  intros Hp Hs Hc. unfold CREATE_COLOR_recipe.
  eexists. split.
  - apply (onScale_Some _ _ _ _ _ _ _ Hp Hs). cbv beta zeta. rewrite Hc.
    rewrite read_nil, !slice_empty. cbn [objectToBoolean negb spread app]. reflexivity.
  - cbn [length]. destruct afterIndex as [k |]; cbn [default].
    + by destruct (_ =? _)%Z.
    + by repeat split.
Qed.

End Colors.

(** ** Naming schemes *)

(** The array [names.map((_, index) => index >= colors.length ? lastColor :
    colors[index])] builds: the first colors in order, then copies of the
    last one. *)
Lemma resized_colors {A : Type} (colors : list (option Color)) (lastColor : option Color)
    (names : list A) :
  last colors = Some lastColor ->
  imap (fun index _ =>
          if (length colors <=? index)%nat then lastColor
          else JsRead.read colors (Z.of_nat index))
       names
  = take (length names) colors ++ replicate (length names - length colors) lastColor.
Proof.
  intros Hlast. apply list_eq. intros i.
  rewrite list_lookup_imap.
  destruct (names !! i) as [n |] eqn:Hn; simpl.
  - pose proof (lookup_lt_Some _ _ _ Hn) as Hi.
    destruct (Nat.leb_spec (length colors) i) as [Hge | Hlt].
    + rewrite lookup_app_r by (rewrite length_take; lia).
      symmetry. apply lookup_replicate_2. rewrite length_take. lia.
    + rewrite lookup_app_l by (rewrite length_take; lia).
      rewrite lookup_take_lt by lia.
      destruct (lookup_lt_is_Some_2 colors i Hlt) as [slot Hslot].
      by rewrite Hslot, (read_nat _ _ _ Hslot).
  - pose proof (lookup_ge_None_1 _ _ Hn) as Hi.
    symmetry. apply lookup_ge_None_2.
    rewrite length_app, length_take, length_replicate. lia.
Qed.

Lemma read_last {A : Type} (a : list (option A)) (slot : option A) :
  last a = Some slot -> JsRead.read a (Z.of_nat (length a) - 1) = slot.
Proof.
  intros H. apply last_Some in H as [init ->].
  unfold JsRead.read. by rewrite get_last.
Qed.


(** C10. With a null [namingSchemeId] the command writes that one field of
    the scale: the document it leaves is the old one with the scale's
    [namingSchemeId] null.  The scale keeps its id, name, colors and curves;
    the palette keeps its own fields, its curves, its naming schemes (the
    detached one among them) and its other scales; the other palettes stay. *)
Theorem detach_naming_scheme_frame
    paletteId scaleId (ps : Palettes) palette scale :
  ps !! paletteId = Some palette ->
  palette_scales palette !! scaleId = Some scale ->
  exists ps' palette' scale',
    CHANGE_SCALE_NAMING_SCHEME_recipe paletteId scaleId None ps = Some ps'
    /\ ps' !! paletteId = Some palette'
    /\ palette_scales palette' !! scaleId = Some scale'
    /\ scale' = mkScale (scale_id scale) (scale_name scale) (scale_colors scale)
                        (scale_curves scale) None
    /\ (forall other, other <> scaleId ->
          palette_scales palette' !! other = palette_scales palette !! other)
    /\ palette_curves palette' = palette_curves palette
    /\ palette_namingSchemes palette' = palette_namingSchemes palette
    /\ palette_id palette' = palette_id palette
    /\ palette_name palette' = palette_name palette
    /\ palette_backgroundColor palette' = palette_backgroundColor palette
    /\ (forall other, other <> paletteId -> ps' !! other = ps !! other).
Proof.
  intros Hp Hs.
  exists (<[paletteId :=
             setScales palette
               (<[scaleId := setNamingSchemeId scale None]> (palette_scales palette))]> ps),
         (setScales palette
            (<[scaleId := setNamingSchemeId scale None]> (palette_scales palette))),
         (setNamingSchemeId scale None).
  split; [by apply (onScale_Some _ _ _ _ _ _ _ Hp Hs) |].
  split; [by rewrite lookup_insert_eq |].
  split; [by cbn [setScales palette_scales]; rewrite lookup_insert_eq |].
  split; [done |].
  split; [by intros other Hne; cbn [setScales palette_scales]; rewrite lookup_insert_ne |].
  repeat (split; [done |]).
  intros other Hne. by rewrite lookup_insert_ne.
Qed.

(** ** Easing *)

Section Easing.

Variable lerp : float -> float -> float -> float.

(** A curve without values has no first value: the recipe returns at once. *)
Lemma APPLY_EASING_FUNCTION_no_values
    paletteId curveId easingFunction (ps : Palettes) palette curve :
  ps !! paletteId = Some palette ->
  palette_curves palette !! curveId = Some curve ->
  curve_values curve = [] ->
  APPLY_EASING_FUNCTION_recipe lerp paletteId curveId easingFunction ps = Some ps.
Proof.
  intros Hp Hc Hv. unfold APPLY_EASING_FUNCTION_recipe.
  by rewrite Hp, Hc, Hv.
Qed.

(** X27. With a first and a last value, every slot of the curve, the first
    and the last included, is rewritten to the eased interpolation between
    the two at [index / (length - 1)], rounded to one decimal place. *)
Lemma APPLY_EASING_FUNCTION_values
    paletteId curveId easingFunction (ps : Palettes) palette curve
    startingPoint endingPoint :
  ps !! paletteId = Some palette ->
  palette_curves palette !! curveId = Some curve ->
  curve_values curve !! 0 = Some (Some startingPoint) ->
  last (curve_values curve) = Some (Some endingPoint) ->
  exists values,
    APPLY_EASING_FUNCTION_recipe lerp paletteId curveId easingFunction ps
    = Some (<[paletteId :=
               setCurves palette
                 (<[curveId := setValues curve values]> (palette_curves palette))]> ps)
    /\ length values = length (curve_values curve)
    /\ (forall index, index < length (curve_values curve) ->
          values !! index
          = Some (Some (Math_round
                          (lerp startingPoint endingPoint
                             (easingFunction
                                (ofZ (Z.of_nat index)
                                 / ofZ (Z.of_nat (length (curve_values curve)) - 1)))
                           * 10) / 10)%float)).
Proof.
  intros Hp Hc Hfirst Hlast. unfold APPLY_EASING_FUNCTION_recipe.
  rewrite Hp, Hc. cbv zeta.
  pose proof (read_nat _ 0 _ Hfirst) as H0. change (Z.of_nat 0) with 0%Z in H0.
  rewrite H0, (read_last _ _ Hlast).
  eexists. split; [reflexivity |]. split; [by rewrite length_imap |].
  intros index Hi. rewrite list_lookup_imap.
  destruct (lookup_lt_is_Some_2 _ _ Hi) as [slot Hslot]. by rewrite Hslot.
Qed.

(** C8. A curve with a single value is not left alone: that value is both
    the first and the last, so the guard on missing end points passes, and
    the value is rewritten to the interpolation at [0 / 0], which is NaN. *)
Theorem APPLY_EASING_FUNCTION_single_value
    paletteId curveId easingFunction (ps : Palettes) palette curve v :
  ps !! paletteId = Some palette ->
  palette_curves palette !! curveId = Some curve ->
  curve_values curve = [Some v] ->
  APPLY_EASING_FUNCTION_recipe lerp paletteId curveId easingFunction ps
  = Some (<[paletteId :=
             setCurves palette
               (<[curveId :=
                    setValues curve
                      [Some (Math_round (lerp v v (easingFunction nan) * 10) / 10)%float]]>
                  (palette_curves palette))]> ps).
Proof.
  intros Hp Hc Hv. unfold APPLY_EASING_FUNCTION_recipe.
  by rewrite Hp, Hc, Hv.
Qed.

End Easing.

(** ** Curves and the effective color *)

(** Adding [0] returns the number, except that [-0 + 0] is [+0]. *)
Lemma float_add_0_r (x : float) : x <> (-0)%float -> (x + 0)%float = x.
Proof.
  intros Hx. apply Prim2SF_inj. rewrite add_spec.
  change (Prim2SF 0) with (S754_zero false).
  destruct (Prim2SF x) as [s | s | | s m e] eqn:Hsf; try reflexivity.
  destruct s; [| reflexivity].
  exfalso. apply Hx. apply Prim2SF_inj. by rewrite Hsf.
Qed.

Lemma read_Some {A : Type} (a : list (option A)) (i : nat) (x : A) :
  JsRead.read a (Z.of_nat i) = Some x <-> a !! i = Some (Some x).
Proof.
  unfold JsRead.read. rewrite get_nat.
  destruct (a !! i) as [slot |]; [| done].
  split; [by intros -> | by intros [= ->]].
Qed.

Lemma getColor_Some (curves : gmap string Curve) (scale : Scale) (index : nat) (c : Color) :
  getColor curves scale index = Some c <->
  exists color,
    scale_colors scale !! index = Some (Some color)
    /\ forall t, effectiveChannel curves scale color index t = Some (channel c t).
Proof.
  unfold getColor. split.
  - destruct (JsRead.read _ _) as [color |] eqn:Hread; [| done].
    apply read_Some in Hread.
    destruct (effectiveChannel _ _ _ _ Hue) as [h |] eqn:Hh; [| done].
    destruct (effectiveChannel _ _ _ _ Saturation) as [s |] eqn:Hs; [| done].
    destruct (effectiveChannel _ _ _ _ Lightness) as [l |] eqn:Hl; [| done].
    intros [= <-]. exists color. split; [done |]. by intros [].
  - intros (color & Hslot & Hall). apply read_Some in Hslot. rewrite Hslot.
    rewrite (Hall Hue), (Hall Saturation), (Hall Lightness). by destruct c.
Qed.

(** The effective value of a channel depends on the scale through the
    channel's curve only. *)
Lemma effectiveChannel_ext (curves curves' : gmap string Curve) (scale scale' : Scale)
    (color color' : Color) (index : nat) (t : CurveType) :
  curveOf (scale_curves scale') t = curveOf (scale_curves scale) t ->
  channel color' t = channel color t ->
  (forall id, curveOf (scale_curves scale) t = Some id -> curves' !! id = curves !! id) ->
  effectiveChannel curves' scale' color' index t = effectiveChannel curves scale color index t.
Proof.
  intros Hcurve Hchannel Hsame. unfold effectiveChannel. rewrite Hcurve, Hchannel.
  destruct (curveOf (scale_curves scale) t) as [id |]; [| done].
  by rewrite (Hsame id eq_refl).
Qed.

(** A curve that gives a channel its effective value is in the palette. *)
Lemma effectiveChannel_curve (curves : gmap string Curve) (scale : Scale) (color : Color)
    (index : nat) (t : CurveType) (id : string) :
  is_Some (effectiveChannel curves scale color index t) ->
  curveOf (scale_curves scale) t = Some id ->
  is_Some (curves !! id).
Proof.
  unfold effectiveChannel. intros [v Hv] Hid. rewrite Hid in Hv.
  destruct (curves !! id); [by eexists | done].
Qed.

(** The effective colors [scale.colors.map((_, index) => getColor(...))]
    collects, when [getColor] answers at every index of the scale. *)
Lemma effective_colors (curves : gmap string Curve) (scale : Scale) :
  (forall index, index < length (scale_colors scale) ->
                 is_Some (getColor curves scale index)) ->
  exists effective,
    JsRead.map (fun index _ => getColor curves scale index) (scale_colors scale)
    = Some effective
    /\ forall index c, getColor curves scale index = Some c -> effective !! index = Some c.
Proof.
  intros Hall.
  destruct (map_is_Some (fun index (_ : option Color) => getColor curves scale index)
              (scale_colors scale)) as [effective Heff].
  { intros k x Hk. apply Hall. by apply lookup_lt_Some in Hk. }
  exists effective. split; [done |].
  apply map_Some in Heff as [Hlen Hk].
  intros index c Hc.
  destruct (proj1 (getColor_Some _ _ _ _) Hc) as (color & Hslot & _).
  destruct (Hk index _ Hslot) as (y & Hy & Hlook). congruence.
Qed.

(** After [CREATE_CURVE_FROM_SCALE] the effective color is the old one with
    [0] added to the channel of the new curve. *)
Lemma getColor_after_create (curves : gmap string Curve) (scale : Scale)
    (curveType : CurveType) (curveId name : string) (effective : list Color)
    (index : nat) (c : Color) :
  curves !! curveId = None ->
  effective !! index = Some c ->
  getColor curves scale index = Some c ->
  getColor
    (<[curveId := mkCurve curveId name curveType
                          ((fun color => channel color curveType) <$> effective)]> curves)
    (setColors
       (setScaleCurves scale (withCurve (scale_curves scale) curveType (Some curveId)))
       (resetOffsets curveType (scale_colors scale)))
    index
  = Some (withChannel c curveType
            (Some (ToNumber (channel c curveType) + 0)%float)).
Proof.
  intros Hfresh Heff Hc.
  destruct (proj1 (getColor_Some _ _ _ _) Hc) as (color & Hslot & Hall).
  apply getColor_Some. exists (withChannel color curveType (Some 0%float)). split.
  - cbn [setColors scale_colors]. unfold resetOffsets.
    by rewrite list_lookup_fmap, Hslot.
  - intros t. rewrite channel_withChannel.
    destruct (decide (curveType = t)) as [<- | Hne].
    + unfold effectiveChannel. cbn [setColors setScaleCurves scale_curves].
      rewrite curveOf_withCurve, decide_True by done.
      rewrite lookup_insert_eq. cbn [curve_values].
      rewrite (read_nat _ index (channel c curveType))
        by (by rewrite list_lookup_fmap, Heff).
      rewrite channel_withChannel, decide_True by done. done.
    + rewrite <- (Hall t). apply effectiveChannel_ext.
      * cbn [setColors setScaleCurves scale_curves].
        by rewrite curveOf_withCurve, decide_False.
      * by rewrite channel_withChannel, decide_False.
      * intros id Hid. apply lookup_insert_ne. intros <-.
        destruct (effectiveChannel_curve curves scale color index t curveId) as [x Hx];
          [by rewrite Hall | done | congruence].
Qed.

(** After a detaching [CHANGE_SCALE_CURVE] the effective color is the old
    one. *)
Lemma getColor_after_detach (curves : gmap string Curve) (scale : Scale)
    (curveType : CurveType) (colors : list (option Color)) (index : nat) (c : Color) :
  JsRead.map
    (fun index slot =>
       match getColor curves scale index with
       | Some effective =>
           Some (Some (withChannel (spread slot) curveType (channel effective curveType)))
       | None => None
       end)
    (scale_colors scale) = Some colors ->
  getColor curves scale index = Some c ->
  getColor curves
    (setScaleCurves (setColors scale colors) (withCurve (scale_curves scale) curveType None))
    index
  = Some c.
Proof.
  intros Hmap Hc.
  destruct (proj1 (getColor_Some _ _ _ _) Hc) as (color & Hslot & Hall).
  apply map_Some in Hmap as [_ Hk].
  destruct (Hk index _ Hslot) as (y & Hy & Hlook). rewrite Hc in Hy.
  injection Hy as <-. cbn [spread] in Hlook.
  apply getColor_Some. exists (withChannel color curveType (channel c curveType)).
  split; [done |].
  intros t. destruct (decide (curveType = t)) as [<- | Hne].
  - unfold effectiveChannel. cbn [setColors setScaleCurves scale_curves].
    rewrite curveOf_withCurve, decide_True by done.
    by rewrite channel_withChannel, decide_True.
  - rewrite <- (Hall t). apply effectiveChannel_ext.
    + cbn [setColors setScaleCurves scale_curves].
      by rewrite curveOf_withCurve, decide_False.
    + by rewrite channel_withChannel, decide_False.
    + done.
Qed.

(** C5. Creating a curve from a scale (under a fresh curve id) and detaching
    the curve of a channel both keep the effective color at every index of a
    scale whose effective colors are defined: after the creation the new
    curve holds the old effective values and the offsets are 0 (a channel
    value that is -0 comes back as +0), after the detachment the colors hold
    the old effective values. *)
Theorem create_and_detach_preserve_color
    eff paletteId scaleId curveType (ps : Palettes) palette scale :
  ps !! paletteId = Some palette ->
  palette_scales palette !! scaleId = Some scale ->
  (forall index, index < length (scale_colors scale) ->
                 is_Some (getColor (palette_curves palette) scale index)) ->
  (palette_curves palette !! uniqueId eff 0 = None ->
   exists ps' palette' scale',
     CREATE_CURVE_FROM_SCALE_recipe eff paletteId scaleId curveType ps = Some ps'
     /\ ps' !! paletteId = Some palette'
     /\ palette_scales palette' !! scaleId = Some scale'
     /\ curveOf (scale_curves scale') curveType = Some (uniqueId eff 0)
     /\ forall index color x,
          getColor (palette_curves palette) scale index = Some color ->
          channel color curveType = Some x ->
          x <> (-0)%float ->
          getColor (palette_curves palette') scale' index = Some color)
  /\ (exists ps' palette' scale',
        CHANGE_SCALE_CURVE_recipe paletteId scaleId curveType "" ps = Some ps'
        /\ ps' !! paletteId = Some palette'
        /\ palette_scales palette' !! scaleId = Some scale'
        /\ curveOf (scale_curves scale') curveType = None
        /\ forall index color,
             getColor (palette_curves palette) scale index = Some color ->
             getColor (palette_curves palette') scale' index = Some color).
Proof.
  intros Hp Hs Hdefined. split.
  - intros Hfresh.
    destruct (effective_colors _ _ Hdefined) as (effective & Hmap & Heff).
    unfold CREATE_CURVE_FROM_SCALE_recipe. rewrite Hp, Hs, Hmap.
    eexists _, _, _. split; [reflexivity |].
    split; [by rewrite lookup_insert_eq |].
    split; [by cbn [setScales palette_scales]; rewrite lookup_insert_eq |].
    split.
    + cbn [setColors setScaleCurves scale_curves].
      by rewrite curveOf_withCurve, decide_True.
    + intros index color x Hc Hx Hnz. cbn [setScales setCurves palette_curves].
      rewrite (getColor_after_create _ _ _ _ _ _ _ _ Hfresh (Heff _ _ Hc) Hc).
      rewrite Hx. cbn [ToNumber]. rewrite (float_add_0_r _ Hnz).
      by rewrite <- Hx, withChannel_same.
  - destruct (map_is_Some
                (fun index slot =>
                   match getColor (palette_curves palette) scale index with
                   | Some effective =>
                       Some (Some (withChannel (spread slot) curveType
                                                (channel effective curveType)))
                   | None => None
                   end)
                (scale_colors scale)) as [colors Hmap].
    { intros k x Hk. destruct (Hdefined k) as [c Hc]; [by apply lookup_lt_Some in Hk |].
      rewrite Hc. by eexists. }
    eexists _, _, _. split.
    { unfold CHANGE_SCALE_CURVE_recipe. eapply onScale_Some; [exact Hp | exact Hs |].
      cbv beta. cbn [stringToBoolean]. rewrite Hmap. reflexivity. }
    split; [by rewrite lookup_insert_eq |].
    split; [by cbn [setScales palette_scales]; rewrite lookup_insert_eq |].
    split.
    + cbn [setColors setScaleCurves scale_curves].
      by rewrite curveOf_withCurve, decide_True.
    + intros index color Hc. cbn [setScales palette_curves].
      by apply getColor_after_detach.
Qed.

(** * The properties on sample documents *)

(** Two float literals differ when their decoded forms do. *)
Ltac float_discriminate H :=
  apply (f_equal Prim2SF) in H; vm_compute in H; discriminate H.

(** C1 on the sample: after two checkpoints and an [UNDO] the document is
    ["B"]; a second [UNDO] followed by [REDO] leaves ["C"], not ["B"]. *)
Lemma undo_then_redo_sample :
  past Sample.undone <> []
  /\ palettes
       (context
          (transition Sample.hexToColor Sample.lerp [] [] Sample.rest Sample.effects
             (transition Sample.hexToColor Sample.lerp [] [] Sample.rest Sample.effects
                (mkState idle Sample.undone) (Send UNDO))
             (Send REDO)))
     = Sample.C.
Proof.
  split; [discriminate |].
  exact (undo_then_redo_takes_first_future
           Sample.hexToColor Sample.lerp [] [] Sample.rest Sample.effects Sample.effects
           (mkState idle Sample.undone) ltac:(discriminate)).
Defined.

(** C2 on the sample: [POP_COLOR] on a scale of one color. *)
Lemma POP_COLOR_sample :
  colorsAt (Sample.doc "A" [Some (Sample.hsl 0 50 50)]) "p" "s"
  = Some [Some (Sample.hsl 0 50 50)]
  /\ (POP_COLOR_recipe "p" "s" (Sample.doc "A" [Some (Sample.hsl 0 50 50)])
       ≫= fun ps => colorsAt ps "p" "s") = Some [].
Proof.
  split; [reflexivity |].
  rewrite (POP_COLOR_empties_single_color_scale "p" "s"
             (Sample.doc "A" [Some (Sample.hsl 0 50 50)])
             (Sample.palette "A" (Sample.scale [Some (Sample.hsl 0 50 50)] noCurves) ∅ ∅)
             (Sample.scale [Some (Sample.hsl 0 50 50)] noCurves)
             (Some (Sample.hsl 0 50 50)) eq_refl eq_refl eq_refl eq_refl).
  reflexivity.
Defined.

(** C3 on the sample: the delayed transition from [debouncing] to [idle]
    leaves the context as it is; the checkpoint would have pushed ["B"] onto
    [past] and cleared [future]. *)
Lemma settle_runs_no_checkpoint :
  transition Sample.hexToColor Sample.lerp [] [] Sample.rest Sample.effects
    (mkState debouncing Sample.undone) After200
  = mkState idle Sample.undone
  /\ past Sample.undone <> past (idle_exit Sample.undone)
  /\ future Sample.undone <> future (idle_exit Sample.undone).
Proof.
  split; [reflexivity |]. split.
  - intros H. apply (f_equal length) in H. vm_compute in H. discriminate H.
  - discriminate.
Qed.

(** C3 on the sample: [DELETE_COLOR] received in [idle] pushes the document
    from before the deletion and clears [future]. *)
Lemma checkpoint_sample :
  transition Sample.hexToColor Sample.lerp [] [] Sample.rest Sample.effects
    (mkState idle Sample.undone) (Send (DELETE_COLOR "p" "s" 0))
  = mkState debouncing
      (mkContext (Sample.doc "B" [Some (Sample.hsl 0 0 20); Some (Sample.hsl 0 0 30)])
                 [Sample.A; Sample.B] []).
Proof.
  exact (proj1 (checkpoint_on_leaving_idle
                  Sample.hexToColor Sample.lerp [] [] Sample.rest Sample.effects
                  Sample.undone)
               (DELETE_COLOR "p" "s" 0)
               (Sample.doc "B" [Some (Sample.hsl 0 0 20); Some (Sample.hsl 0 0 30)])
               eq_refl eq_refl).
Defined.

(** C7 on the sample: [DELETE_PALETTE] received in [idle] ends in
    [debouncing] and runs the checkpoint. *)
Lemma DELETE_PALETTE_enters_debouncing :
  transition Sample.hexToColor Sample.lerp [] [] Sample.rest Sample.effects
    (mkState idle Sample.undone) (Send (DELETE_PALETTE "p"))
  = mkState debouncing (mkContext ∅ [Sample.A; Sample.B] [])
  /\ value (transition Sample.hexToColor Sample.lerp [] [] Sample.rest Sample.effects
             (mkState idle Sample.undone) (Send (DELETE_PALETTE "p")))
     <> idle.
Proof. split; [reflexivity | discriminate]. Qed.

(** C5 on the sample: attaching the curve ["c"], of value 0, to the lightness
    of a color of lightness 10 makes the effective lightness 0. *)
Lemma attach_existing_curve_changes_color :
  effectiveColorAt Sample.withFreeCurve "p" "s" 0 = Some (Sample.hsl 0 0 10)
  /\ (CHANGE_SCALE_CURVE_recipe "p" "s" Lightness "c" Sample.withFreeCurve
      ≫= fun ps => effectiveColorAt ps "p" "s" 0) = Some (Sample.hsl 0 0 0)
  /\ Sample.hsl 0 0 10 <> Sample.hsl 0 0 0.
Proof.
  split; [reflexivity |]. split; [reflexivity |].
  intros H. apply (f_equal (fun c => ToNumber (lightness c))) in H.
  float_discriminate H.
Qed.

(** C5 on the sample: creating a lightness curve from the ramp and detaching
    it again keep the effective color at index 1. *)
Lemma create_and_detach_sample :
  (exists ps',
      CREATE_CURVE_FROM_SCALE_recipe Sample.effects "p" "s" Lightness Sample.A = Some ps'
      /\ effectiveColorAt ps' "p" "s" 1 = Some (Sample.hsl 0 0 20))
  /\ (exists ps',
        CHANGE_SCALE_CURVE_recipe "p" "s" Lightness "" Sample.A = Some ps'
        /\ effectiveColorAt ps' "p" "s" 1 = Some (Sample.hsl 0 0 20)).
Proof.
  assert (Hdefined : forall index,
             index < length (scale_colors (Sample.scale Sample.ramp noCurves)) ->
             is_Some (getColor ∅ (Sample.scale Sample.ramp noCurves) index)).
  { intros [| [| [| index]]] Hi; [by eexists .. | simpl in Hi; lia]. }
  destruct (create_and_detach_preserve_color
              Sample.effects "p" "s" Lightness Sample.A
              (Sample.palette "A" (Sample.scale Sample.ramp noCurves) ∅ ∅)
              (Sample.scale Sample.ramp noCurves) eq_refl eq_refl Hdefined)
    as [Hcreate Hdetach].
  split.
  - destruct (Hcreate eq_refl) as (ps' & palette' & scale' & Hr & Hp & Hs & _ & Hsame).
    exists ps'. split; [done |]. unfold effectiveColorAt. rewrite Hp, Hs.
    apply (Hsame 1 (Sample.hsl 0 0 20) 20%float); [reflexivity | reflexivity |].
    intros H. float_discriminate H.
  - destruct Hdetach as (ps' & palette' & scale' & Hr & Hp & Hs & _ & Hsame).
    exists ps'. split; [done |]. unfold effectiveColorAt. rewrite Hp, Hs.
    by apply (Hsame 1 (Sample.hsl 0 0 20)).
Defined.

(** C6 on the sample: [CREATE_COLOR] on a scale without colors. *)
Lemma CREATE_COLOR_sample :
  (CREATE_COLOR_recipe Sample.hexToColor ["black"] Sample.effects "p" "s" None
     (Sample.doc "A" [])
   ≫= fun ps => colorsAt ps "p" "s")
  = Some [Some (mkColor None None (Some nan))].
Proof.
  destruct (CREATE_COLOR_on_empty_scale Sample.hexToColor ["black"] Sample.effects
              "p" "s" None (Sample.doc "A" [])
              (Sample.palette "A" (Sample.scale [] noCurves) ∅ ∅)
              (Sample.scale [] noCurves) eq_refl eq_refl eq_refl)
    as (color & Hr & Hh & Hs & Hl).
  rewrite Hr. destruct color as [h s l]. simpl in Hh, Hs, Hl.
  rewrite Hh, Hs, (Hl eq_refl). reflexivity.
Defined.

(** C8 on the sample: the linear easing on a curve of the single value 5
    leaves NaN in the curve. *)
Lemma APPLY_EASING_FUNCTION_sample :
  valuesAt Sample.withSingleValueCurve "p" "c" = Some [Some 5%float]
  /\ (APPLY_EASING_FUNCTION_recipe Sample.lerp "p" "c" Sample.linear
        Sample.withSingleValueCurve
      ≫= fun ps => valuesAt ps "p" "c") = Some [Some nan].
Proof.
  split; [reflexivity |].
  rewrite (APPLY_EASING_FUNCTION_single_value Sample.lerp "p" "c" Sample.linear
             Sample.withSingleValueCurve
             (Sample.palette "A"
                (Sample.scale [Some (Sample.hsl 0 0 0)] (mkScaleCurves None None (Some "c")))
                {[ "c" := mkCurve "c" "gray lightness" Lightness [Some 5%float] ]} ∅)
             (mkCurve "c" "gray lightness" Lightness [Some 5%float]) 5%float
             eq_refl eq_refl eq_refl).
  reflexivity.
Defined.


(** C10 on the sample: detaching the naming scheme keeps the three colors
    and the naming scheme itself. *)
Lemma detach_naming_scheme_sample :
  exists ps' palette',
    CHANGE_SCALE_NAMING_SCHEME_recipe "p" "s" None Sample.named = Some ps'
    /\ ps' !! "p" = Some palette'
    /\ scale_namingSchemeId <$> palette_scales palette' !! "s" = Some None
    /\ colorsAt ps' "p" "s" = colorsAt Sample.named "p" "s"
    /\ is_Some (palette_namingSchemes palette' !! "n").
Proof.
  destruct (detach_naming_scheme_frame "p" "s" Sample.named
              (Sample.palette "A"
                 (mkScale "s" "gray"
                    [Some (Sample.hsl 0 0 10); Some (Sample.hsl 0 0 20);
                     Some (Sample.hsl 0 0 20)]
                    noCurves (Some "n"))
                 ∅ {[ "n" := mkNamingScheme "n" "steps" ["0"; "1"; "2"] ]})
              (mkScale "s" "gray"
                 [Some (Sample.hsl 0 0 10); Some (Sample.hsl 0 0 20);
                  Some (Sample.hsl 0 0 20)]
                 noCurves (Some "n"))
              eq_refl eq_refl)
    as (ps' & palette' & scale' & Hr & Hp & Hs & Hscale & _ & _ & Hschemes & _).
  exists ps', palette'. split; [done |]. split; [done |].
  split; [by rewrite Hs, Hscale |].
  split; [by unfold colorsAt at 1; rewrite Hp, Hs, Hscale |].
  rewrite Hschemes. by eexists.
Defined.

(** ** Sessions from the initial state *)

(** After the sample session the scale has two colors; a further [UNDO]
    followed by [REDO] leaves it with one, the document the first [UNDO]
    had put into [future]. *)
Example undo_redo_session :
  length <$> colorsAfter Sample.session = Some 2
  /\ length <$> colorsAfter (Sample.session
                               ++ [(Sample.effects, Send UNDO); (Sample.effects, Send REDO)])
     = Some 1.
Proof. split; reflexivity. Qed.

(** Deleting down to one color, [POP_COLOR] and then [CREATE_COLOR] leave a
    scale whose only color has a NaN lightness and no other channel. *)
Example pop_then_create_session :
  colorsAfter [(Sample.effects, Send CREATE_PALETTE);
               (Sample.effects, Send (DELETE_COLOR "new" "new scale" 0));
               (Sample.effects, Send (DELETE_COLOR "new" "new scale" 0));
               (Sample.effects, Send (POP_COLOR "new" "new scale"));
               (Sample.effects, Send (CREATE_COLOR "new" "new scale" None))]
  = Some [Some (mkColor None None (Some nan))].
Proof. reflexivity. Qed.

(** * Further properties of the machine *)

(** ** Undo and redo around an edit *)

Lemma drop_snoc_le {A : Type} (n : nat) (a : list A) (x : A) :
  n <= length a -> drop n (a ++ [x]) = drop n a ++ [x].
Proof. intros Hn. by rewrite drop_app_le. Qed.

Section UndoRedo.

Variable hexToColor : option string -> Color.
Variable lerp : float -> float -> float -> float.
Variable cssColorNames : list string.
Variable exampleScales : list (string * ExampleScale).
Variable restRecipe : Effects -> MachineEvent -> Palettes -> option Palettes.

Local Abbreviation recipeOf :=
  (palettesRecipe hexToColor lerp cssColorNames exampleScales restRecipe).
Local Abbreviation step :=
  (transition hexToColor lerp cssColorNames exampleScales restRecipe).

(** A command with a target, received in [idle], whose recipe answers. *)
Lemma step_edit_from_idle eff event c ps' :
  target event = Some debouncing ->
  recipeOf eff event (palettes c) = Some ps' ->
  step eff (mkState idle c) (Send event)
  = mkState debouncing
      (mkContext ps' (drop (length (past c) - 24) (past c) ++ [palettes c]) []).
Proof.
  intros Ht Hps.
  destruct (target_Some_not_history _ _ Ht) as (_ & Hu & Hr).
  unfold transition. rewrite Ht. cbn [value context exit].
  rewrite (actions_palettes _ _ _ _ _ _ _ _ Hu Hr). cbn [palettes idle_exit].
  rewrite Hps. cbn [fmap option_fmap option_map].
  rewrite idle_exit_past.
  replace (length (past c) + 1 - 25) with (length (past c) - 24) by lia.
  by rewrite drop_snoc_le by lia.
Qed.

(** The same command received in [debouncing]. *)
Lemma step_edit_from_debouncing eff event c ps' :
  target event = Some debouncing ->
  recipeOf eff event (palettes c) = Some ps' ->
  step eff (mkState debouncing c) (Send event)
  = mkState debouncing (mkContext ps' (past c) (future c)).
Proof.
  intros Ht Hps.
  destruct (target_Some_not_history _ _ Ht) as (_ & Hu & Hr).
  unfold transition. rewrite Ht. cbn [value context exit].
  rewrite (actions_palettes _ _ _ _ _ _ _ _ Hu Hr).
  by rewrite Hps.
Qed.

(** X1. An edit received in [idle] and settled is reverted by one [UNDO]:
    the document is the one from before the edit, the edited document is the
    only entry of [future], and [past] has lost the snapshot the edit pushed.
    A [REDO] right after brings the edited document and that snapshot
    back. *)
Theorem undo_reverts_settled_edit eff event (c : MachineContext) (ps' : Palettes) :
  target event = Some debouncing ->
  recipeOf eff event (palettes c) = Some ps' ->
  let settled := step eff (step eff (mkState idle c) (Send event)) After200 in
  step eff settled (Send UNDO)
  = mkState idle (mkContext (palettes c) (drop (length (past c) - 24) (past c)) [ps'])
  /\ step eff (step eff settled (Send UNDO)) (Send REDO) = settled.
Proof.
  intros Ht Hps settled. unfold settled.
  rewrite (step_edit_from_idle _ _ _ _ Ht Hps).
  assert (Hundo :
    step eff
      (step eff
         (mkState debouncing
            (mkContext ps' (drop (length (past c) - 24) (past c) ++ [palettes c]) []))
         After200)
      (Send UNDO)
    = mkState idle (mkContext (palettes c) (drop (length (past c) - 24) (past c)) [ps'])).
  { cbn [transition value context target actions].
    by rewrite (UNDO_recipe_push _ (drop (length (past c) - 24) (past c)) (palettes c)). }
  split; [exact Hundo |].
  rewrite Hundo. cbn [transition value context target actions].
  by rewrite (REDO_recipe_shift _ ps' []).
Qed.

(** X2. A burst of edits is one undo step: a second command received while
    [debouncing] pushes nothing, so [UNDO] after the two brings back the
    document from before the first. *)
Theorem undo_reverts_whole_burst eff event1 event2 (c : MachineContext)
    (ps1 ps2 : Palettes) :
  target event1 = Some debouncing ->
  target event2 = Some debouncing ->
  recipeOf eff event1 (palettes c) = Some ps1 ->
  recipeOf eff event2 ps1 = Some ps2 ->
  step eff (step eff (step eff (mkState idle c) (Send event1)) (Send event2)) (Send UNDO)
  = mkState debouncing
      (mkContext (palettes c) (drop (length (past c) - 24) (past c)) [ps2]).
Proof.
  intros Ht1 Ht2 Hps1 Hps2.
  rewrite (step_edit_from_idle _ _ _ _ Ht1 Hps1).
  rewrite (step_edit_from_debouncing _ _ _ ps2 Ht2) by exact Hps2.
  cbn [transition value context target actions past future palettes].
  by rewrite (UNDO_recipe_push _ (drop (length (past c) - 24) (past c)) (palettes c)).
Qed.

(** X3. [REDO] followed at once by [UNDO] restores the document and [past]
    for every context with a non-empty [future]; the entry that was redone
    returns to [future] behind the others. *)
Theorem redo_then_undo_restores_document eff (st : State) first later :
  future (context st) = first :: later ->
  step eff (step eff st (Send REDO)) (Send UNDO)
  = mkState (value st)
      (mkContext (palettes (context st)) (past (context st)) (later ++ [first])).
Proof.
  intros Hf. cbn [transition value context target actions].
  rewrite (REDO_recipe_shift _ first later Hf).
  by rewrite (UNDO_recipe_push _ (past (context st)) (palettes (context st))).
Qed.

(** X4. [UNDO] and [REDO] lose no snapshot and invent none: after [UNDO] the
    documents of [past], the present one and those of [future] are the same
    collection as before, and [REDO] keeps them in the same order too. *)
Theorem undo_redo_keep_snapshots eff (st : State) :
  (past (context (step eff st (Send UNDO)))
   ++ palettes (context (step eff st (Send UNDO)))
      :: future (context (step eff st (Send UNDO)))
   ≡ₚ past (context st) ++ palettes (context st) :: future (context st))
  /\ (past (context (step eff st (Send REDO)))
      ++ palettes (context (step eff st (Send REDO)))
         :: future (context (step eff st (Send REDO)))
      = past (context st) ++ palettes (context st) :: future (context st)).
Proof.
  split; cbn [transition value context target actions].
  - destruct (decide (past (context st) = [])) as [He | Hne].
    + by rewrite UNDO_recipe_empty.
    + destruct (snoc_of_nonempty _ Hne) as (earlier & present & Hp).
      rewrite (UNDO_recipe_push _ earlier present Hp), Hp. cbn [past palettes future].
      rewrite <- (assoc_L (++)). cbn [app].
      apply Permutation_app_head, perm_skip. symmetry. apply Permutation_cons_append.
  - destruct (future (context st)) as [| present later] eqn:Hf.
    + by rewrite REDO_recipe_empty, Hf.
    + rewrite (REDO_recipe_shift _ present later Hf). cbn [past palettes future].
      by rewrite <- (assoc_L (++)).
Qed.

(** X5. An edit received in [idle] discards what could be redone: after it
    [future] is empty, and [REDO] changes nothing. *)
Theorem edit_discards_redo eff event (c : MachineContext) (ps' : Palettes) :
  target event = Some debouncing ->
  recipeOf eff event (palettes c) = Some ps' ->
  future (context (step eff (mkState idle c) (Send event))) = []
  /\ step eff (step eff (mkState idle c) (Send event)) (Send REDO)
     = step eff (mkState idle c) (Send event).
Proof.
  intros Ht Hps. rewrite (step_edit_from_idle _ _ _ _ Ht Hps). split; [done |].
  cbn [transition value context target actions]. by rewrite REDO_recipe_empty.
Qed.

End UndoRedo.

(** ** Palettes *)

Lemma keyBy_snoc (scales : list Scale) (s : Scale) :
  keyBy (scales ++ [s]) = <[scale_id s := s]> (keyBy scales).
Proof. unfold keyBy. by rewrite foldl_snoc. Qed.

(** [keyBy] files every scale under its own id. *)
Lemma keyBy_lookup (scales : list Scale) (k : string) (s : Scale) :
  keyBy scales !! k = Some s -> scale_id s = k /\ exists i, scales !! i = Some s.
Proof.
  induction scales as [| x scales IH] using rev_ind; [done |].
  rewrite keyBy_snoc. destruct (decide (scale_id x = k)) as [Hk | Hk].
  - rewrite <- Hk, lookup_insert_eq. intros [= <-]. split; [done |].
    exists (length scales). by rewrite lookup_app_r, Nat.sub_diag.
  - rewrite lookup_insert_ne by done. intros H.
    destruct (IH H) as (Hid & i & Hi). split; [done |].
    exists i. by apply lookup_app_l_Some.
Qed.

(** With pairwise distinct ids, [keyBy] keeps every scale. *)
Lemma keyBy_lookup_NoDup (scales : list Scale) (i : nat) (s : Scale) :
  NoDup (scale_id <$> scales) ->
  scales !! i = Some s ->
  keyBy scales !! scale_id s = Some s.
Proof.
  induction scales as [| x scales IH] using rev_ind; [done |].
  rewrite fmap_app, keyBy_snoc. intros Hnd Hi.
  apply NoDup_app in Hnd as (Hnd & Hnot & _).
  destruct (decide (i = length scales)) as [-> | Hne].
  - rewrite lookup_app_r, Nat.sub_diag in Hi by done. injection Hi as ->.
    by rewrite lookup_insert_eq.
  - assert (Hlt : i < length scales).
    { apply lookup_lt_Some in Hi. rewrite length_app in Hi. simpl in Hi. lia. }
    rewrite lookup_app_l in Hi by done.
    rewrite lookup_insert_ne; [by apply IH |].
    intros Heq. apply (Hnot (scale_id s)).
    + apply list_elem_of_fmap. exists s. split; [done |].
      by apply list_elem_of_lookup_2 in Hi.
    + rewrite <- Heq. simpl. apply list_elem_of_here.
Qed.

Section Palettes.

Variable hexToColor : option string -> Color.
Variable lerp : float -> float -> float -> float.
Variable cssColorNames : list string.
Variable exampleScales : list (string * ExampleScale).

(** X6. [CREATE_PALETTE] adds one palette under the fresh id and keeps the
    palettes under other ids.  The new palette carries that id, is named
    ["Untitled"] on a white background, and has no curve and no naming
    scheme; each of its scales is filed under its own id, has no curve and no
    naming scheme, and takes its name and its colors from one entry of the
    example scales; when the ids drawn for the scales differ from each other,
    every entry is there. *)
Theorem CREATE_PALETTE_seeds_example_scales (eff : Effects) (ps : Palettes) :
  exists palette,
    CREATE_PALETTE_recipe hexToColor exampleScales eff ps
    = Some (<[uniqueId eff 0 := palette]> ps)
    /\ palette_id palette = uniqueId eff 0
    /\ palette_name palette = "Untitled"
    /\ palette_backgroundColor palette = "#ffffff"
    /\ palette_curves palette = ∅
    /\ palette_namingSchemes palette = ∅
    /\ (forall k s,
          palette_scales palette !! k = Some s ->
          scale_id s = k
          /\ scale_curves s = noCurves
          /\ scale_namingSchemeId s = None
          /\ exists i name example,
               exampleScales !! i = Some (name, example)
               /\ k = uniqueId eff (S i)
               /\ scale_name s = name
               /\ scale_colors s
                  = (fun hex => Some (hexToColor (Some hex))) <$> scaleArray example)
    /\ (NoDup ((fun i => uniqueId eff (S i)) <$> seq 0 (length exampleScales)) ->
        forall i name example,
          exampleScales !! i = Some (name, example) ->
          exists s, palette_scales palette !! uniqueId eff (S i) = Some s
                    /\ scale_name s = name).
Proof.
  eexists. split; [reflexivity |]. cbn [palette_id palette_name palette_backgroundColor
                                       palette_curves palette_namingSchemes palette_scales].
  repeat (split; [done |]).
  set (scales := imap _ exampleScales).
  assert (Hscales : forall i s, scales !! i = Some s ->
            exists name example,
              exampleScales !! i = Some (name, example)
              /\ s = mkScale (uniqueId eff (S i)) name
                            ((fun hex => Some (hexToColor (Some hex))) <$> scaleArray example)
                            noCurves None).
  { intros i s Hi. unfold scales in Hi. rewrite list_lookup_imap in Hi.
    destruct (exampleScales !! i) as [[name example] |]; [| done].
    injection Hi as <-. by exists name, example. }
  split.
  - intros k s Hk. apply keyBy_lookup in Hk as (Hid & i & Hi).
    destruct (Hscales i s Hi) as (name & example & Hex & ->).
    cbn in Hid. cbn. repeat (split; [done |]).
    by exists i, name, example.
  - intros Hnd i name example Hex.
    assert (Hi : scales !! i
                 = Some (mkScale (uniqueId eff (S i)) name
                           ((fun hex => Some (hexToColor (Some hex))) <$> scaleArray example)
                           noCurves None)).
    { unfold scales. by rewrite list_lookup_imap, Hex. }
    exists (mkScale (uniqueId eff (S i)) name
              ((fun hex => Some (hexToColor (Some hex))) <$> scaleArray example)
              noCurves None).
    split; [| reflexivity].
    assert (Hids : scale_id <$> scales
                   = (fun i => uniqueId eff (S i)) <$> seq 0 (length exampleScales));
      [| rewrite <- Hids in Hnd; exact (keyBy_lookup_NoDup scales i _ Hnd Hi)].
    apply list_eq. intros j. rewrite !list_lookup_fmap.
    destruct (scales !! j) as [s |] eqn:Hj.
    + destruct (Hscales j s Hj) as (n & e & Hej & ->).
      rewrite lookup_seq_lt by (by apply lookup_lt_Some in Hej). done.
    + unfold scales in Hj. rewrite list_lookup_imap in Hj.
      destruct (exampleScales !! j) as [[] |] eqn:Hej; [done |].
      apply lookup_ge_None_1 in Hej. by rewrite lookup_seq_ge.
Qed.

End Palettes.

(** X7. [DUPLICATE_PALETTE] under a fresh id adds a copy with the scales, the
    curves, the naming schemes and the background color of the original and
    its name followed by [" (copy)"]; the original stays, and deleting the
    copy with [DELETE_PALETTE] gives the document back. *)
Theorem DUPLICATE_PALETTE_copies_and_deletes_back
    (eff : Effects) (paletteId : string) (ps : Palettes) (existingPalette : Palette) :
  ps !! paletteId = Some existingPalette ->
  ps !! uniqueId eff 0 = None ->
  exists ps' copy,
    DUPLICATE_PALETTE_recipe eff paletteId ps = Some ps'
    /\ ps' !! paletteId = Some existingPalette
    /\ ps' !! uniqueId eff 0 = Some copy
    /\ palette_id copy = uniqueId eff 0
    /\ palette_name copy = palette_name existingPalette +:+ " (copy)"
    /\ palette_backgroundColor copy = palette_backgroundColor existingPalette
    /\ palette_scales copy = palette_scales existingPalette
    /\ palette_curves copy = palette_curves existingPalette
    /\ palette_namingSchemes copy = palette_namingSchemes existingPalette
    /\ DELETE_PALETTE_recipe (uniqueId eff 0) ps' = Some ps.
Proof.
  intros Hp Hfresh. unfold DUPLICATE_PALETTE_recipe, DELETE_PALETTE_recipe. rewrite Hp.
  eexists _, _. split; [reflexivity |].
  split; [rewrite lookup_insert_ne; [done | congruence] |].
  split; [by rewrite lookup_insert_eq |].
  repeat (split; [done |]).
  by rewrite delete_insert_eq, delete_id.
Qed.

(** ** Commands on what is not there *)

Lemma onPalette_missing paletteId f (ps : Palettes) :
  ps !! paletteId = None -> onPalette paletteId f ps = None.
Proof. intros H. unfold onPalette. by rewrite H. Qed.

Lemma onScale_missing paletteId scaleId f (ps : Palettes) :
  ps !! paletteId = None -> onScale paletteId scaleId f ps = None.
Proof. intros H. unfold onScale. by rewrite H. Qed.

Section Missing.

Variable hexToColor : option string -> Color.
Variable lerp : float -> float -> float -> float.
Variable cssColorNames : list string.
Variable exampleScales : list (string * ExampleScale).
Variable other : Effects -> MachineEvent -> Palettes -> option Palettes.

Local Abbreviation recipeOf :=
  (palettesRecipe hexToColor lerp cssColorNames exampleScales (sourceRecipes other)).
Local Abbreviation step :=
  (transition hexToColor lerp cssColorNames exampleScales (sourceRecipes other)).

(** Every recipe but [DELETE_PALETTE]'s reads the palette it is sent for. *)
Lemma recipe_of_missing_palette eff event paletteId (ps : Palettes) :
  (forall eff' event' ps' paletteId',
      paletteIdOf event' = Some paletteId' -> ps' !! paletteId' = None ->
      other eff' event' ps' = None) ->
  paletteIdOf event = Some paletteId ->
  event <> DELETE_PALETTE paletteId ->
  ps !! paletteId = None ->
  recipeOf eff event ps = None.
Proof.
  intros Hother Hid Hnot Hmissing.
  destruct event; cbn in Hid; try discriminate Hid; injection Hid as ->;
    cbn [palettesRecipe sourceRecipes];
    try (by apply onPalette_missing);
    try (by apply onScale_missing);
    try (by apply (Hother _ _ _ paletteId)).
  - unfold DUPLICATE_PALETTE_recipe. by rewrite Hmissing.
  - congruence.
  - unfold CREATE_CURVE_FROM_SCALE_recipe. by rewrite Hmissing.
  - unfold APPLY_EASING_FUNCTION_recipe. by rewrite Hmissing.
Qed.


(** X9. [DELETE_PALETTE] of a palette that is not in the document raises
    nothing and leaves the document as it is, but it is still an edit for the
    machine: received in [idle] it pushes the unchanged document onto [past]
    and clears [future]. *)
Theorem DELETE_PALETTE_of_missing_palette_checkpoints
    eff (c : MachineContext) paletteId :
  palettes c !! paletteId = None ->
  step eff (mkState idle c) (Send (DELETE_PALETTE paletteId))
  = mkState debouncing
      (mkContext (palettes c) (drop (length (past c) - 24) (past c) ++ [palettes c]) []).
Proof.
  intros Hmissing. apply step_edit_from_idle; [done |].
  cbn [palettesRecipe]. unfold DELETE_PALETTE_recipe. by rewrite delete_id.
Qed.

End Missing.

(** ** Colors of a scale *)

Lemma slice_prefix {A : Type} (a : list A) (k : nat) :
  JsArray.slice a 0 (Some (Z.of_nat k + 1)%Z) = take (S k) a.
Proof.
  unfold JsArray.slice. rewrite !relative_nonneg by lia.
  replace (Nat.min (Z.to_nat 0) (length a)) with 0 by lia.
  rewrite drop_0, Nat.sub_0_r.
  replace (Z.to_nat (Z.of_nat k + 1)) with (S k) by lia.
  destruct (Nat.le_ge_cases (S k) (length a)) as [Hle | Hge].
  - by rewrite Nat.min_l.
  - rewrite Nat.min_r by done. by rewrite !take_ge by lia.
Qed.

Lemma slice_suffix {A : Type} (a : list A) (k : nat) :
  JsArray.slice a (Z.of_nat k + 1) None = drop (S k) a.
Proof.
  unfold JsArray.slice. rewrite relative_nonneg by lia.
  replace (Z.to_nat (Z.of_nat k + 1)) with (S k) by lia.
  destruct (Nat.le_ge_cases (S k) (length a)) as [Hle | Hge].
  - rewrite Nat.min_l by done. apply take_ge. rewrite length_drop. lia.
  - rewrite Nat.min_r by done. rewrite !drop_ge by lia. apply take_nil.
Qed.

(** [Math.max(0, x)] is never below zero. *)
Lemma Math_max_0_not_negative (x : float) : (Math_max 0 x <? 0)%float = false.
Proof.
  unfold Math_max. change (is_nan 0) with false. cbn [orb].
  destruct (is_nan x); [reflexivity |].
  destruct (0 <? x)%float eqn:Hpos.
  - rewrite ltb_spec in Hpos. rewrite ltb_spec.
    change (Prim2SF 0) with (S754_zero false) in *.
    destruct (Prim2SF x) as [s | s | | s m e]; try done; by destruct s.
  - destruct (x <? 0)%float; reflexivity.
Qed.

(** X10. [CREATE_COLOR] after a color that is there inserts one color right
    behind it and keeps the others in their order.  After the last color
    (also when [afterIndex] is null) the new color is that color with its
    lightness lowered by 10 and not below 0; elsewhere it is an exact
    copy. *)
Theorem CREATE_COLOR_inserts_behind
    (hexToColor : option string -> Color) (cssColorNames : list string)
    eff paletteId scaleId afterIndex (ps : Palettes) palette scale (k : nat) color :
  ps !! paletteId = Some palette ->
  palette_scales palette !! scaleId = Some scale ->
  default (Z.of_nat (length (scale_colors scale)) - 1)%Z afterIndex = Z.of_nat k ->
  scale_colors scale !! k = Some (Some color) ->
  let inserted :=
    if bool_decide (S k = length (scale_colors scale)) then
      withChannel color Lightness
        (Some (Math_max 0 (ToNumber (lightness color) - 10)%float))
    else color in
  CREATE_COLOR_recipe hexToColor cssColorNames eff paletteId scaleId afterIndex ps
  = Some (<[paletteId :=
             setScales palette
               (<[scaleId :=
                    setColors scale
                      (take (S k) (scale_colors scale) ++ [Some inserted]
                       ++ drop (S k) (scale_colors scale))]>
                  (palette_scales palette))]> ps)
  /\ length (take (S k) (scale_colors scale) ++ [Some inserted]
             ++ drop (S k) (scale_colors scale))
     = S (length (scale_colors scale))
  /\ (S k = length (scale_colors scale) ->
      exists l, lightness inserted = Some l /\ (l <? 0)%float = false).
Proof.
  intros Hp Hs Hk Hslot inserted.
  pose proof (lookup_lt_Some _ _ _ Hslot) as Hlt.
  split; [| split].
  - apply (onScale_Some _ _ _ _ _ _ _ Hp Hs). cbv beta zeta.
    rewrite Hk, (read_nat _ _ _ Hslot). cbn [objectToBoolean negb spread].
    rewrite slice_prefix, slice_suffix. unfold inserted.
    destruct (Z.eqb_spec (Z.of_nat k) (Z.of_nat (length (scale_colors scale)) - 1))
      as [Heq | Hne].
    + by rewrite bool_decide_eq_true_2 by lia.
    + by rewrite bool_decide_eq_false_2 by lia.
  - rewrite length_app, length_take. cbn [app length]. rewrite length_drop. lia.
  - intros Hlast. unfold inserted. rewrite bool_decide_eq_true_2 by done.
    eexists. split; [reflexivity |]. apply Math_max_0_not_negative.
Qed.

(** X11. [DELETE_COLOR] at an index of a scale that has two or more colors
    and no naming scheme removes the color at that index and keeps the
    others in their order. *)
Theorem DELETE_COLOR_removes_indexed_color
    paletteId scaleId (index : nat) (ps : Palettes) palette scale :
  ps !! paletteId = Some palette ->
  palette_scales palette !! scaleId = Some scale ->
  scale_namingSchemeId scale = None ->
  1 < length (scale_colors scale) ->
  index < length (scale_colors scale) ->
  DELETE_COLOR_recipe paletteId scaleId (Z.of_nat index) ps
  = Some (<[paletteId :=
             setScales palette
               (<[scaleId := setColors scale (delete index (scale_colors scale))]>
                  (palette_scales palette))]> ps)
  /\ length (delete index (scale_colors scale)) = length (scale_colors scale) - 1.
Proof.
  intros Hp Hs Hn Hlen Hi. split.
  - apply (onScale_Some _ _ _ _ _ _ _ Hp Hs). cbv beta zeta. rewrite Hn.
    rewrite bool_decide_eq_false_2 by (by intros H).
    destruct (Nat.ltb_spec 1 (length (scale_colors scale))); [| lia].
    unfold JsArray.splice1. rewrite relative_nonneg by lia.
    replace (Nat.min (Z.to_nat (Z.of_nat index)) (length (scale_colors scale)))
      with index by lia.
    by rewrite delete_take_drop.
  - rewrite length_delete; [lia |]. by apply lookup_lt_is_Some_2.
Qed.

(** X12. With a naming scheme attached to the scale, [POP_COLOR] and
    [DELETE_COLOR] leave the document as it is, whatever the number of
    colors and the index. *)
Theorem naming_scheme_locks_color_count
    paletteId scaleId (index : Z) (ps : Palettes) palette scale :
  ps !! paletteId = Some palette ->
  palette_scales palette !! scaleId = Some scale ->
  scale_namingSchemeId scale <> None ->
  POP_COLOR_recipe paletteId scaleId ps = Some ps
  /\ DELETE_COLOR_recipe paletteId scaleId index ps = Some ps.
Proof.
  intros Hp Hs Hn. split.
  - by apply (POP_COLOR_naming_scheme _ _ _ palette scale).
  - by apply (DELETE_COLOR_naming_scheme _ _ _ _ palette scale).
Qed.

(** ** Curves of a palette *)

(** After an existing curve is attached to a channel, the channel's effective
    value is the curve's own value (with the zeroed offset added). *)
Lemma getColor_after_attach (curves : gmap string Curve) (scale : Scale)
    (curveType : CurveType) (curveId : string) (curve : Curve) (index : nat) (c : Color) :
  curves !! curveId = Some curve ->
  getColor curves scale index = Some c ->
  getColor curves
    (setScaleCurves (setColors scale (resetOffsets curveType (scale_colors scale)))
                    (withCurve (scale_curves scale) curveType (Some curveId)))
    index
  = Some (withChannel c curveType
            (Some (ToNumber (JsRead.read (curve_values curve) (Z.of_nat index)) + 0)%float)).
Proof.
  intros Hcurve Hc.
  destruct (proj1 (getColor_Some _ _ _ _) Hc) as (color & Hslot & Hall).
  apply getColor_Some. exists (withChannel color curveType (Some 0%float)). split.
  - cbn [setColors setScaleCurves scale_colors]. unfold resetOffsets.
    by rewrite list_lookup_fmap, Hslot.
  - intros t. rewrite channel_withChannel.
    destruct (decide (curveType = t)) as [<- | Hne].
    + unfold effectiveChannel. cbn [setColors setScaleCurves scale_curves].
      rewrite curveOf_withCurve, decide_True by done.
      rewrite Hcurve. by rewrite channel_withChannel, decide_True.
    + rewrite <- (Hall t). apply effectiveChannel_ext.
      * cbn [setColors setScaleCurves scale_curves].
        by rewrite curveOf_withCurve, decide_False.
      * by rewrite channel_withChannel, decide_False.
      * done.
Qed.


(** The effective colors do not depend on a curve no channel of the scale
    names. *)
Lemma getColor_delete_unused (curves : gmap string Curve) (scale : Scale)
    (curveId : string) (index : nat) :
  (forall t, curveOf (scale_curves scale) t <> Some curveId) ->
  getColor (delete curveId curves) scale index = getColor curves scale index.
Proof.
  intros Hunused. unfold getColor.
  destruct (JsRead.read (scale_colors scale) (Z.of_nat index)) as [color |]; [| done].
  assert (Hsame : forall t,
             effectiveChannel (delete curveId curves) scale color index t
             = effectiveChannel curves scale color index t).
  { intros t. apply effectiveChannel_ext; [done | done |].
    intros id Hid. apply lookup_delete_ne. intros <-. by apply (Hunused t). }
  by rewrite !Hsame.
Qed.

(** One round of [DELETE_CURVE]'s inner loop on a scale whose effective
    colors are defined: it answers, the channel no longer names the curve,
    and the effective colors are the old ones. *)
Lemma detachDeleted_keeps_colors (curves : gmap string Curve) (curveId : string)
    (type : CurveType) (scale : Scale) :
  (forall index, index < length (scale_colors scale) ->
                 is_Some (getColor curves scale index)) ->
  exists scale',
    detachDeleted curves curveId type scale = Some scale'
    /\ length (scale_colors scale') = length (scale_colors scale)
    /\ curveOf (scale_curves scale') type <> Some curveId
    /\ (forall t, curveOf (scale_curves scale) t <> Some curveId ->
                  curveOf (scale_curves scale') t <> Some curveId)
    /\ (forall index c, getColor curves scale index = Some c ->
                        getColor curves scale' index = Some c).
Proof.
  intros Hdefined. unfold detachDeleted.
  destruct (decide (curveOf (scale_curves scale) type = Some curveId)) as [Hcurve | Hcurve].
  - rewrite bool_decide_eq_true_2 by done.
    set (callback := fun (index : nat) (slot : option Color) => _).
    destruct (map_is_Some callback (scale_colors scale)) as [colors Hmap].
    { intros k slot Hk. destruct (Hdefined k) as [c Hc]; [by apply lookup_lt_Some in Hk |].
      destruct (proj1 (getColor_Some _ _ _ _) Hc) as (color & Hslot & Hall).
      rewrite Hk in Hslot. injection Hslot as ->.
      destruct (effectiveChannel_curve curves scale color k type curveId) as [curve Hcv];
        [by rewrite Hall | done |].
      unfold callback. rewrite Hcv. by eexists. }
    rewrite Hmap. eexists. split; [reflexivity |].
    pose proof (proj1 (map_Some _ _ _) Hmap) as [Hlen Hslots].
    split; [done |].
    split.
    { cbn [setColors setScaleCurves scale_curves].
      by rewrite curveOf_withCurve, decide_True. }
    split.
    { intros t Ht. cbn [setColors setScaleCurves scale_curves].
      rewrite curveOf_withCurve. by destruct (decide (type = t)). }
    intros index c Hc.
    destruct (proj1 (getColor_Some _ _ _ _) Hc) as (color & Hslot & Hall).
    destruct (Hslots index _ Hslot) as (slot' & Hcall & Hlook).
    unfold callback in Hcall.
    destruct (curves !! curveId) as [curve |] eqn:Hcv; [| done].
    injection Hcall as <-.
    apply getColor_Some. eexists. split; [exact Hlook |].
    intros t. destruct (decide (type = t)) as [<- | Hne].
    + rewrite <- (Hall type). unfold effectiveChannel.
      cbn [setColors setScaleCurves scale_curves].
      rewrite curveOf_withCurve, decide_True by done.
      rewrite Hcurve, Hcv. by rewrite channel_withChannel, decide_True.
    + rewrite <- (Hall t). apply effectiveChannel_ext.
      * cbn [setColors setScaleCurves scale_curves].
        by rewrite curveOf_withCurve, decide_False.
      * by rewrite channel_withChannel, decide_False.
      * done.
  - rewrite bool_decide_eq_false_2 by done. by exists scale.
Qed.

Lemma detachDeletedAll_keeps_colors (curves : gmap string Curve) (curveId : string)
    (scale : Scale) :
  (forall index, index < length (scale_colors scale) ->
                 is_Some (getColor curves scale index)) ->
  exists scale',
    detachDeletedAll curves curveId scale = Some scale'
    /\ length (scale_colors scale') = length (scale_colors scale)
    /\ (forall t, curveOf (scale_curves scale') t <> Some curveId)
    /\ (forall index c, getColor curves scale index = Some c ->
                        getColor curves scale' index = Some c).
Proof.
  intros Hdefined. unfold detachDeletedAll.
  assert (Hnext : forall s s' : Scale,
             length (scale_colors s') = length (scale_colors s) ->
             (forall index, index < length (scale_colors s) ->
                            is_Some (getColor curves s index)) ->
             (forall index c, getColor curves s index = Some c ->
                              getColor curves s' index = Some c) ->
             forall index, index < length (scale_colors s') ->
                           is_Some (getColor curves s' index)).
  { intros s s' Hlen Hdef Hkeep index Hi.
    destruct (Hdef index) as [c Hc]; [lia |]. exists c. by apply Hkeep. }
  destruct (detachDeleted_keeps_colors curves curveId Hue scale Hdefined)
    as (s1 & -> & Hlen1 & Hh1 & Hother1 & Hkeep1).
  pose proof (Hnext _ _ Hlen1 Hdefined Hkeep1) as Hdefined1.
  destruct (detachDeleted_keeps_colors curves curveId Saturation s1 Hdefined1)
    as (s2 & -> & Hlen2 & Hs2 & Hother2 & Hkeep2).
  pose proof (Hnext _ _ Hlen2 Hdefined1 Hkeep2) as Hdefined2.
  destruct (detachDeleted_keeps_colors curves curveId Lightness s2 Hdefined2)
    as (s3 & -> & Hlen3 & Hl3 & Hother3 & Hkeep3).
  exists s3. split; [done |]. split; [congruence |]. split.
  - intros []; [by apply Hother3, Hother2 | by apply Hother3 | done].
  - intros index c Hc. by apply Hkeep3, Hkeep2, Hkeep1.
Qed.

(** X14. [DELETE_CURVE] in a palette whose scales all have their effective
    colors defined answers, removes the curve, leaves no channel of any scale
    naming it, and keeps every effective color of every scale: the colors of
    the scales that used the curve take over its values. *)
Theorem DELETE_CURVE_keeps_effective_colors
    paletteId curveId (ps : Palettes) palette :
  ps !! paletteId = Some palette ->
  (forall scaleId scale,
      palette_scales palette !! scaleId = Some scale ->
      forall index, index < length (scale_colors scale) ->
                    is_Some (getColor (palette_curves palette) scale index)) ->
  exists ps' palette',
    DELETE_CURVE_recipe paletteId curveId ps = Some ps'
    /\ ps' !! paletteId = Some palette'
    /\ palette_curves palette' = delete curveId (palette_curves palette)
    /\ (forall scaleId,
          palette_scales palette !! scaleId = None ->
          palette_scales palette' !! scaleId = None)
    /\ (forall scaleId scale,
          palette_scales palette !! scaleId = Some scale ->
          exists scale',
            palette_scales palette' !! scaleId = Some scale'
            /\ length (scale_colors scale') = length (scale_colors scale)
            /\ (forall t, curveOf (scale_curves scale') t <> Some curveId)
            /\ (forall index c,
                  getColor (palette_curves palette) scale index = Some c ->
                  getColor (palette_curves palette') scale' index = Some c)).
Proof.
  intros Hp Hdefined. unfold DELETE_CURVE_recipe, onPalette. rewrite Hp. cbv zeta.
  rewrite decide_True.
  2: { apply map_Forall_lookup. intros scaleId scale Hs.
       destruct (detachDeletedAll_keeps_colors (palette_curves palette) curveId scale)
         as (scale' & Hd & _); [by apply (Hdefined scaleId) |].
       rewrite Hd. by eexists. }
  eexists _, _. split; [reflexivity |].
  split; [by rewrite lookup_insert_eq |].
  split; [done |].
  split.
  - intros scaleId Hs. cbn [setCurves setScales palette_scales].
    by rewrite lookup_fmap, Hs.
  - intros scaleId scale Hs.
    destruct (detachDeletedAll_keeps_colors (palette_curves palette) curveId scale)
      as (scale' & Hd & Hlen & Hunused & Hkeep); [by apply (Hdefined scaleId) |].
    exists scale'. split.
    { cbn [setCurves setScales palette_scales]. by rewrite lookup_fmap, Hs; cbn; rewrite Hd. }
    split; [done |]. split; [done |].
    intros index c Hc. cbn [setCurves setScales palette_curves].
    rewrite getColor_delete_unused by done. by apply Hkeep.
Qed.

(** X15. [APPLY_EASING_FUNCTION] needs both end points: when the first or the
    last slot of the curve holds no number (an empty curve among the cases),
    the document is left as it is. *)
Theorem APPLY_EASING_FUNCTION_needs_end_points
    (lerp : float -> float -> float -> float)
    paletteId curveId easingFunction (ps : Palettes) palette curve :
  ps !! paletteId = Some palette ->
  palette_curves palette !! curveId = Some curve ->
  JsRead.read (curve_values curve) 0 = None
  \/ JsRead.read (curve_values curve) (Z.of_nat (length (curve_values curve)) - 1) = None ->
  APPLY_EASING_FUNCTION_recipe lerp paletteId curveId easingFunction ps = Some ps.
Proof.
  intros Hp Hc Hend. unfold APPLY_EASING_FUNCTION_recipe. rewrite Hp, Hc. cbv zeta.
  destruct Hend as [-> | ->]; [done |].
  by destruct (JsRead.read (curve_values curve) 0).
Qed.

(** ** Scales of a palette *)

Lemma getColor_same_colors_and_curves (curves : gmap string Curve) (scale scale' : Scale)
    (index : nat) :
  scale_colors scale' = scale_colors scale ->
  scale_curves scale' = scale_curves scale ->
  getColor curves scale' index = getColor curves scale index.
Proof.
  intros Hcolors Hcurves. unfold getColor, effectiveChannel. by rewrite Hcolors, Hcurves.
Qed.

(** X16. [DUPLICATE_SCALE] under a fresh id adds a scale that carries the new
    id, the old name followed by [" (copy)"], the naming scheme of the
    original and, at every index, the effective color of the original: the
    copy names the same curves.  The original and the curves stay. *)
Theorem DUPLICATE_SCALE_copy_shows_same_colors
    eff paletteId scaleId (ps : Palettes) palette existingScale :
  ps !! paletteId = Some palette ->
  palette_scales palette !! scaleId = Some existingScale ->
  palette_scales palette !! uniqueId eff 0 = None ->
  exists ps' palette' copy,
    DUPLICATE_SCALE_recipe eff paletteId scaleId ps = Some ps'
    /\ ps' !! paletteId = Some palette'
    /\ palette_scales palette' !! scaleId = Some existingScale
    /\ palette_scales palette' !! uniqueId eff 0 = Some copy
    /\ palette_curves palette' = palette_curves palette
    /\ scale_id copy = uniqueId eff 0
    /\ scale_name copy = scale_name existingScale +:+ " (copy)"
    /\ scale_namingSchemeId copy = scale_namingSchemeId existingScale
    /\ forall index,
         getColor (palette_curves palette') copy index
         = getColor (palette_curves palette) existingScale index.
Proof.
  intros Hp Hs Hfresh. unfold DUPLICATE_SCALE_recipe, onPalette. rewrite Hp, Hs.
  eexists _, _, _. split; [reflexivity |].
  split; [by rewrite lookup_insert_eq |].
  split; [cbn [setScales palette_scales]; rewrite lookup_insert_ne; [done | congruence] |].
  split; [by cbn [setScales palette_scales]; rewrite lookup_insert_eq |].
  repeat (split; [done |]).
  intros index. by apply getColor_same_colors_and_curves.
Qed.

(** X17. [CHANGE_COLOR_VALUE] at an index that holds a color writes the
    channels the value carries into that color, keeps its other channels,
    and keeps every other slot and the length of the array; at an index that
    holds no color it raises. *)
Theorem CHANGE_COLOR_VALUE_writes_one_color
    paletteId scaleId (index : Z) (value : Color) (ps : Palettes) palette scale :
  ps !! paletteId = Some palette ->
  palette_scales palette !! scaleId = Some scale ->
  (JsRead.read (scale_colors scale) index = None ->
   CHANGE_COLOR_VALUE_recipe paletteId scaleId index value ps = None)
  /\ (forall color,
        JsRead.read (scale_colors scale) index = Some color ->
        exists colors,
          CHANGE_COLOR_VALUE_recipe paletteId scaleId index value ps
          = Some (<[paletteId :=
                     setScales palette
                       (<[scaleId := setColors scale colors]> (palette_scales palette))]> ps)
          /\ length colors = length (scale_colors scale)
          /\ colors !! Z.to_nat index = Some (Some (assignColor color value))
          /\ (forall j, j <> Z.to_nat index -> colors !! j = scale_colors scale !! j)
          /\ (forall t, channel (assignColor color value) t
                        = match channel value t with
                          | Some v => Some v
                          | None => channel color t
                          end)).
Proof.
  intros Hp Hs. split.
  - intros Hread. unfold CHANGE_COLOR_VALUE_recipe, onScale. by rewrite Hp, Hs, Hread.
  - intros color Hread. eexists. split.
    { apply (onScale_Some _ _ _ _ _ _ _ Hp Hs). cbv beta. by rewrite Hread. }
    assert (Hi : Z.to_nat index < length (scale_colors scale)).
    { unfold JsRead.read, JsArray.get in Hread.
      destruct (index <? 0)%Z; [done |].
      destruct (scale_colors scale !! Z.to_nat index) eqn:Hl; [| done].
      by apply lookup_lt_Some in Hl. }
    split; [by rewrite length_insert |].
    split; [by rewrite list_lookup_insert_eq |].
    split; [by intros j Hj; rewrite list_lookup_insert_ne |].
    by intros [].
Qed.

(** The number an input sends is never NaN. *)
Lemma orZero_not_nan (x : float) : is_nan (orZero x) = false.
Proof.
  unfold orZero. destruct (is_nan x) eqn:Hnan; [reflexivity |].
  cbn [orb]. destruct (is_zero x); [reflexivity | exact Hnan].
Qed.

(** X18. When the color page shows a color, a change of one of its three
    number inputs is a command the machine accepts; it stores a number that
    is not NaN in that channel of the color (0 when the input reports NaN),
    and the other two channels of the stored color stay. *)
Theorem color_page_inputs_store_numbers
    (other : Effects -> MachineEvent -> Palettes -> option Palettes) (eff : Effects)
    (t : CurveType) paletteId scaleId (indexAsNumber : Z) (valueAsNumber : float)
    (ps : Palettes) (color : Color) :
  ColorPage ps paletteId scaleId (Some indexAsNumber) = Some (Some color) ->
  exists ps' stored v,
    sourceRecipes other eff
      (onChange t paletteId scaleId indexAsNumber valueAsNumber) ps = Some ps'
    /\ ColorPage ps' paletteId scaleId (Some indexAsNumber) = Some (Some stored)
    /\ channel stored t = Some v
    /\ v = orZero valueAsNumber
    /\ is_nan v = false
    /\ forall t', t' <> t -> channel stored t' = channel color t'.
Proof.
  unfold ColorPage. intros Hpage.
  destruct (ps !! paletteId) as [palette |] eqn:Hp; [| done].
  destruct (palette_scales palette !! scaleId) as [scale |] eqn:Hs; [| done].
  injection Hpage as Hread.
  assert (Hi : (0 <= indexAsNumber)%Z /\ Z.to_nat indexAsNumber < length (scale_colors scale)).
  { unfold JsRead.read, JsArray.get in Hread.
    destruct (Z.ltb_spec indexAsNumber 0); [done |]. split; [done |].
    destruct (scale_colors scale !! Z.to_nat indexAsNumber) eqn:Hl; [| done].
    by apply lookup_lt_Some in Hl. }
  destruct Hi as [Hnonneg Hi].
  assert (Hrecipe : forall value,
    CHANGE_COLOR_VALUE_recipe paletteId scaleId indexAsNumber value ps
    = Some (<[paletteId :=
               setScales palette
                 (<[scaleId :=
                      setColors scale
                        (<[Z.to_nat indexAsNumber := Some (assignColor color value)]>
                           (scale_colors scale))]> (palette_scales palette))]> ps)).
  { intros value. apply (onScale_Some _ _ _ _ _ _ _ Hp Hs). cbv beta. by rewrite Hread. }
  assert (Hstored : forall value,
    JsRead.read (<[Z.to_nat indexAsNumber := Some (assignColor color value)]>
                   (scale_colors scale)) indexAsNumber
    = Some (assignColor color value)).
  { intros value. rewrite <- (Z2Nat.id indexAsNumber) at 2 by done.
    apply read_nat. by rewrite list_lookup_insert_eq. }
  destruct t; cbn [onChange onChangeHue onChangeSaturation onChangeLightness sourceRecipes];
    rewrite Hrecipe; eexists _, _, _; (split; [reflexivity |]);
    rewrite lookup_insert_eq; cbn [setScales palette_scales];
    rewrite lookup_insert_eq; cbn [setColors scale_colors]; rewrite Hstored;
    (split; [reflexivity |]); (split; [reflexivity |]); (split; [reflexivity |]);
    (split; [apply orZero_not_nan |]); by intros [].
Qed.

(** ** Naming schemes of a palette *)

Lemma imap_pretty_seq {A : Type} (a : list A) :
  imap (fun i _ => pretty i) a = pretty <$> seq 0 (length a).
Proof.
  apply list_eq. intros i. rewrite list_lookup_imap, list_lookup_fmap.
  destruct (a !! i) as [x |] eqn:Hi; simpl.
  - by rewrite lookup_seq_lt by (by apply lookup_lt_Some in Hi).
  - by rewrite lookup_seq_ge by (by apply lookup_ge_None_1 in Hi).
Qed.

(** The resize to as many names as there are colors is the identity. *)
Lemma resize_same_length {A : Type} (colors : list (option Color)) (lastColor : option Color)
    (names : list A) :
  length names = length colors ->
  imap (fun index _ =>
          if (length colors <=? index)%nat then lastColor
          else JsRead.read colors (Z.of_nat index))
       names
  = colors.
Proof.
  intros Hlen. apply list_eq. intros i. rewrite list_lookup_imap.
  destruct (names !! i) as [n |] eqn:Hn; simpl.
  - pose proof (lookup_lt_Some _ _ _ Hn) as Hi.
    destruct (Nat.leb_spec (length colors) i) as [Hge | Hlt]; [lia |].
    destruct (lookup_lt_is_Some_2 colors i Hlt) as [slot Hslot].
    by rewrite Hslot, (read_nat _ _ _ Hslot).
  - pose proof (lookup_ge_None_1 _ _ Hn) as Hi.
    symmetry. apply lookup_ge_None_2. lia.
Qed.

(** X19. [CREATE_NAMING_SCHEME_FROM_SCALE] files a naming scheme under the
    fresh id, with one name per color of the scale: the names are the indices
    in decimal, so they differ from each other.  The scheme is attached to
    the scale, whose colors stay, and the palette's other naming schemes and
    its curves stay. *)
Theorem CREATE_NAMING_SCHEME_FROM_SCALE_names_every_color
    eff paletteId scaleId (ps : Palettes) palette scale :
  ps !! paletteId = Some palette ->
  palette_scales palette !! scaleId = Some scale ->
  exists ps' palette' namingScheme,
    CREATE_NAMING_SCHEME_FROM_SCALE_recipe eff paletteId scaleId ps = Some ps'
    /\ ps' !! paletteId = Some palette'
    /\ palette_namingSchemes palette' !! uniqueId eff 0 = Some namingScheme
    /\ namingScheme_id namingScheme = uniqueId eff 0
    /\ namingScheme_name namingScheme = scale_name scale +:+ " naming scheme"
    /\ length (namingScheme_names namingScheme) = length (scale_colors scale)
    /\ (forall i, i < length (scale_colors scale) ->
                  namingScheme_names namingScheme !! i = Some (pretty i))
    /\ NoDup (namingScheme_names namingScheme)
    /\ palette_scales palette' !! scaleId
       = Some (setNamingSchemeId scale (Some (uniqueId eff 0)))
    /\ (forall k, k <> uniqueId eff 0 ->
                  palette_namingSchemes palette' !! k = palette_namingSchemes palette !! k)
    /\ palette_curves palette' = palette_curves palette.
Proof.
  intros Hp Hs. unfold CREATE_NAMING_SCHEME_FROM_SCALE_recipe, onPalette.
  rewrite Hp, Hs. cbv zeta.
  eexists _, _, _. split; [reflexivity |].
  split; [by rewrite lookup_insert_eq |].
  split; [by cbn [setScales setNamingSchemes palette_namingSchemes]; rewrite lookup_insert_eq |].
  cbn [namingScheme_id namingScheme_name namingScheme_names].
  split; [done |]. split; [done |].
  split; [by rewrite length_imap |].
  split.
  { intros i Hi. rewrite list_lookup_imap.
    destruct (lookup_lt_is_Some_2 _ _ Hi) as [slot Hslot]. by rewrite Hslot. }
  split.
  { rewrite imap_pretty_seq. apply NoDup_fmap_2; [apply _ | apply NoDup_seq]. }
  split; [by cbn [setScales palette_scales]; rewrite lookup_insert_eq |].
  split; [| done].
  intros k Hk. cbn [setScales setNamingSchemes palette_namingSchemes].
  by rewrite lookup_insert_ne.
Qed.

(** X20. Right after [CREATE_NAMING_SCHEME_FROM_SCALE] (under a non-empty
    id) the scale's color count is fixed: [POP_COLOR] and [DELETE_COLOR]
    leave the document as it is, and so does attaching the new scheme again
    with [CHANGE_SCALE_NAMING_SCHEME], whose resize finds as many names as
    colors. *)
Theorem created_naming_scheme_fits_scale
    eff paletteId scaleId (index : Z) (ps ps' : Palettes) :
  uniqueId eff 0 <> "" ->
  CREATE_NAMING_SCHEME_FROM_SCALE_recipe eff paletteId scaleId ps = Some ps' ->
  POP_COLOR_recipe paletteId scaleId ps' = Some ps'
  /\ DELETE_COLOR_recipe paletteId scaleId index ps' = Some ps'
  /\ CHANGE_SCALE_NAMING_SCHEME_recipe paletteId scaleId (Some (uniqueId eff 0)) ps'
     = Some ps'.
Proof.
  intros Hid. unfold CREATE_NAMING_SCHEME_FROM_SCALE_recipe, onPalette.
  destruct (ps !! paletteId) as [palette |] eqn:Hp; [| done].
  destruct (palette_scales palette !! scaleId) as [scale |] eqn:Hs; [| done].
  cbv zeta. intros [= <-].
  set (new := uniqueId eff 0) in *.
  set (palette' := setScales _ _).
  assert (Hp' : <[paletteId := palette']> ps !! paletteId = Some palette')
    by apply lookup_insert_eq.
  assert (Hs' : palette_scales palette' !! scaleId
                = Some (setNamingSchemeId scale (Some new))).
  { unfold palette'. cbn [setScales palette_scales]. apply lookup_insert_eq. }
  split; [| split].
  - by apply (POP_COLOR_naming_scheme _ _ _ _ _ Hp' Hs').
  - by apply (DELETE_COLOR_naming_scheme _ _ _ _ _ _ Hp' Hs').
  - apply (onScale_unchanged _ _ _ _ _ _ Hp' Hs'). cbv beta zeta.
    destruct new as [| a new'] eqn:Hnew; [done |]. cbn [stringToBoolean negb].
    unfold palette'. cbn [setScales setNamingSchemes palette_namingSchemes].
    rewrite lookup_insert_eq. cbn [namingScheme_names setNamingSchemeId scale_colors].
    rewrite resize_same_length by (by rewrite length_imap).
    done.
Qed.

(** X21. Attaching a naming scheme to a scale that has no color finds no
    last color to copy: the color array becomes one [undefined] slot per
    name. *)
Theorem attach_naming_scheme_to_empty_scale
    paletteId scaleId id (ps : Palettes) palette scale namingScheme :
  ps !! paletteId = Some palette ->
  palette_scales palette !! scaleId = Some scale ->
  palette_namingSchemes palette !! id = Some namingScheme ->
  id <> "" ->
  scale_colors scale = [] ->
  CHANGE_SCALE_NAMING_SCHEME_recipe paletteId scaleId (Some id) ps
  = Some (<[paletteId :=
             setScales palette
               (<[scaleId :=
                    setColors (setNamingSchemeId scale (Some id))
                      (replicate (length (namingScheme_names namingScheme)) None)]>
                  (palette_scales palette))]> ps).
Proof.
  intros Hp Hs Hn Hid Hempty.
  apply (onScale_Some _ _ _ _ _ _ _ Hp Hs). cbv beta zeta.
  destruct id as [| a id']; [done |]. cbn [stringToBoolean negb].
  rewrite Hn, Hempty. cbn [length Nat.leb]. do 2 f_equal.
  apply list_eq. intros i. rewrite list_lookup_imap.
  destruct (namingScheme_names namingScheme !! i) as [n |] eqn:Hi; simpl.
  - symmetry. apply lookup_replicate_2. by apply lookup_lt_Some in Hi.
  - symmetry. apply lookup_ge_None_2. rewrite length_replicate.
    by apply lookup_ge_None_1 in Hi.
Qed.


(** ** Entities are filed under their ids *)

Lemma filedUnderIds_insert (ps : Palettes) paletteId palette :
  filedUnderIds ps -> filedPalette paletteId palette ->
  filedUnderIds (<[paletteId := palette]> ps).
Proof.
  intros Hps Hp k p. destruct (decide (paletteId = k)) as [<- | Hne].
  - rewrite lookup_insert_eq. by intros [= <-].
  - rewrite lookup_insert_ne by done. apply Hps.
Qed.

Lemma filedUnderIds_delete (ps : Palettes) paletteId :
  filedUnderIds ps -> filedUnderIds (delete paletteId ps).
Proof.
  intros Hps k p Hk. apply Hps. by apply lookup_delete_Some in Hk as [_ Hk].
Qed.

Lemma filed_insert_scale (scales : gmap string Scale) scaleId scale :
  (forall k s, scales !! k = Some s -> scale_id s = k) ->
  scale_id scale = scaleId ->
  forall k s, <[scaleId := scale]> scales !! k = Some s -> scale_id s = k.
Proof.
  intros Hscales Hid k s. destruct (decide (scaleId = k)) as [<- | Hne].
  - rewrite lookup_insert_eq. by intros [= <-].
  - rewrite lookup_insert_ne by done. apply Hscales.
Qed.

Lemma filedPalette_setScales paletteId palette (scales : gmap string Scale) :
  filedPalette paletteId palette ->
  (forall k s, scales !! k = Some s -> scale_id s = k) ->
  filedPalette paletteId (setScales palette scales).
Proof. intros (Hid & _ & Hc & Hn) Hs. by repeat split. Qed.

Lemma onPalette_filed paletteId f (ps ps' : Palettes) :
  filedUnderIds ps ->
  (forall palette palette',
      filedPalette paletteId palette -> f palette = Some palette' ->
      filedPalette paletteId palette') ->
  onPalette paletteId f ps = Some ps' ->
  filedUnderIds ps'.
Proof.
  intros Hps Hf. unfold onPalette.
  destruct (ps !! paletteId) as [palette |] eqn:Hp; [| done].
  destruct (f palette) as [palette' |] eqn:Hfp; [| done].
  intros [= <-]. apply filedUnderIds_insert; [done |].
  apply (Hf palette); [by apply Hps | done].
Qed.

Lemma onScale_filed paletteId scaleId f (ps ps' : Palettes) :
  filedUnderIds ps ->
  (forall palette scale scale', f palette scale = Some scale' ->
                                scale_id scale' = scale_id scale) ->
  onScale paletteId scaleId f ps = Some ps' ->
  filedUnderIds ps'.
Proof.
  intros Hps Hf. unfold onScale.
  destruct (ps !! paletteId) as [palette |] eqn:Hp; [| done].
  destruct (palette_scales palette !! scaleId) as [scale |] eqn:Hs; [| done].
  destruct (f palette scale) as [scale' |] eqn:Hfs; [| done].
  intros [= <-]. apply filedUnderIds_insert; [done |].
  pose proof (Hps _ _ Hp) as Hfiled.
  apply filedPalette_setScales; [done |].
  destruct Hfiled as (_ & Hscales & _).
  apply filed_insert_scale; [done |].
  rewrite (Hf _ _ _ Hfs). by apply Hscales.
Qed.

Lemma onCurve_filed paletteId curveId f (ps ps' : Palettes) :
  filedUnderIds ps ->
  (forall curve, curve_id (f curve) = curve_id curve) ->
  onCurve paletteId curveId f ps = Some ps' ->
  filedUnderIds ps'.
Proof.
  intros Hps Hf. apply onPalette_filed; [done |].
  intros palette palette' (Hid & Hs & Hc & Hn).
  destruct (palette_curves palette !! curveId) as [curve |] eqn:Hcv; [| done].
  intros [= <-]. repeat split; try done.
  intros k c. cbn [setCurves palette_curves].
  destruct (decide (curveId = k)) as [<- | Hne].
  - rewrite lookup_insert_eq. intros [= <-]. rewrite Hf. by apply Hc.
  - rewrite lookup_insert_ne by done. apply Hc.
Qed.

Lemma detachDeleted_id curves curveId type scale scale' :
  detachDeleted curves curveId type scale = Some scale' -> scale_id scale' = scale_id scale.
Proof.
  unfold detachDeleted. destruct (bool_decide _); [| by intros [= <-]].
  destruct (JsRead.map _ _); [| done]. by intros [= <-].
Qed.

Lemma detachDeletedAll_id curves curveId scale :
  scale_id (default scale (detachDeletedAll curves curveId scale)) = scale_id scale.
Proof.
  unfold detachDeletedAll.
  destruct (detachDeleted curves curveId Hue scale) as [s1 |] eqn:H1; [| done].
  destruct (detachDeleted curves curveId Saturation s1) as [s2 |] eqn:H2; [| done].
  destruct (detachDeleted curves curveId Lightness s2) as [s3 |] eqn:H3; [| done].
  cbn. apply detachDeleted_id in H1, H2, H3. congruence.
Qed.

Section Filed.

Variable hexToColor : option string -> Color.
Variable lerp : float -> float -> float -> float.
Variable cssColorNames : list string.
Variable exampleScales : list (string * ExampleScale).
Variable other : Effects -> MachineEvent -> Palettes -> option Palettes.

Hypothesis other_filed :
  forall eff event (ps ps' : Palettes),
    filedUnderIds ps -> other eff event ps = Some ps' -> filedUnderIds ps'.

Local Abbreviation recipeOf :=
  (palettesRecipe hexToColor lerp cssColorNames exampleScales (sourceRecipes other)).
Local Abbreviation runs :=
  (run hexToColor lerp cssColorNames exampleScales (sourceRecipes other)).

(** A recipe on a scale that answers a scale of the same id. *)
Ltac same_scale_id :=
  intros ? ? ?; cbv beta zeta; repeat case_match; intros; simplify_eq; done.

Lemma recipe_keeps_filed eff event (ps ps' : Palettes) :
  filedUnderIds ps -> importFiled event ->
  recipeOf eff event ps = Some ps' -> filedUnderIds ps'.
Proof.
  intros Hps Himport.
  destruct event; cbn [palettesRecipe sourceRecipes]; try (by apply other_filed).
  - (* CREATE_PALETTE *)
    intros [= <-]. apply filedUnderIds_insert; [done |].
    repeat split; try done. intros k s Hk. by apply keyBy_lookup in Hk as [].
  - (* DUPLICATE_PALETTE *)
    unfold DUPLICATE_PALETTE_recipe.
    destruct (ps !! paletteId) as [existingPalette |] eqn:Hp; [| done].
    intros [= <-]. apply filedUnderIds_insert; [done |].
    destruct (Hps _ _ Hp) as (_ & Hs & Hc & Hn). by repeat split.
  - (* DELETE_PALETTE *)
    intros [= <-]. by apply filedUnderIds_delete.
  - (* CHANGE_PALETTE_NAME *)
    apply onPalette_filed; [done |]. by intros p p' (? & ? & ? & ?) [= <-].
  - (* IMPORT_SCALES *)
    apply onPalette_filed; [done |]. intros p p' (Hid & Hs & Hc & Hn).
    cbn in Himport. destruct replace; intros [= <-]; repeat split; try done.
    intros k s. cbn [setScales palette_scales]. unfold Object_assign.
    intros Hk. apply lookup_union_Some_raw in Hk as [Hk | [_ Hk]]; eauto.
  - (* CHANGE_PALETTE_BACKGROUND_COLOR *)
    apply onPalette_filed; [done |]. by intros p p' (? & ? & ? & ?) [= <-].
  - (* DELETE_SCALE *)
    apply onPalette_filed; [done |]. intros p p' (Hid & Hs & Hc & Hn) [= <-].
    repeat split; try done. intros k s Hk. cbn [setScales palette_scales] in Hk.
    apply lookup_delete_Some in Hk as [_ Hk]. by apply Hs.
  - (* DUPLICATE_SCALE *)
    apply onPalette_filed; [done |]. intros p p' Hfiled. cbv zeta.
    destruct (palette_scales p !! scaleId) as [existingScale |]; [| done].
    intros [= <-]. apply filedPalette_setScales; [done |].
    destruct Hfiled as (_ & Hs & _). by apply filed_insert_scale.
  - (* CHANGE_SCALE_NAME *)
    apply onScale_filed; [done |]. same_scale_id.
  - (* CREATE_COLOR *)
    apply onScale_filed; [done |]. same_scale_id.
  - (* POP_COLOR *)
    apply onScale_filed; [done |]. same_scale_id.
  - (* DELETE_COLOR *)
    apply onScale_filed; [done |]. same_scale_id.
  - (* CHANGE_COLOR_VALUE *)
    apply onScale_filed; [done |]. same_scale_id.
  - (* CREATE_CURVE_FROM_SCALE *)
    unfold CREATE_CURVE_FROM_SCALE_recipe.
    destruct (ps !! paletteId) as [palette |] eqn:Hp; [| done].
    destruct (palette_scales palette !! scaleId) as [scale |] eqn:Hs; [| done].
    destruct (JsRead.map _ _) as [effective |]; [| done].
    intros [= <-]. apply filedUnderIds_insert; [done |].
    destruct (Hps _ _ Hp) as (Hid & Hss & Hc & Hn).
    repeat split; try done.
    + cbn [setScales palette_scales]. apply filed_insert_scale; [done |].
      cbn. by apply Hss.
    + intros k c. cbn [setScales setCurves palette_curves].
      destruct (decide (uniqueId eff 0 = k)) as [<- | Hne].
      * rewrite lookup_insert_eq. by intros [= <-].
      * rewrite lookup_insert_ne by done. apply Hc.
  - (* CREATE_NAMING_SCHEME_FROM_SCALE *)
    apply onPalette_filed; [done |]. intros p p' (Hid & Hss & Hc & Hn). cbv zeta.
    destruct (palette_scales p !! scaleId) as [scale |] eqn:Hs; [| done].
    intros [= <-]. repeat split; try done.
    + cbn [setScales palette_scales]. apply filed_insert_scale; [done |].
      cbn. by apply Hss.
    + intros k n. cbn [setScales setNamingSchemes palette_namingSchemes].
      destruct (decide (uniqueId eff 0 = k)) as [<- | Hne].
      * rewrite lookup_insert_eq. by intros [= <-].
      * rewrite lookup_insert_ne by done. apply Hn.
  - (* CHANGE_CURVE_NAME *)
    by apply onCurve_filed.
  - (* DELETE_CURVE *)
    apply onPalette_filed; [done |]. intros p p' (Hid & Hss & Hc & Hn). cbv zeta.
    destruct (decide _); [| done]. intros [= <-]. repeat split; try done.
    + intros k s. cbn [setScales setCurves palette_scales]. rewrite lookup_fmap.
      destruct (palette_scales p !! k) as [s0 |] eqn:Hk; [| done].
      intros [= <-]. rewrite detachDeletedAll_id. by apply Hss.
    + intros k c Hk. cbn [setScales setCurves palette_curves] in Hk.
      apply lookup_delete_Some in Hk as [_ Hk]. by apply Hc.
  - (* CHANGE_SCALE_CURVE *)
    apply onScale_filed; [done |]. same_scale_id.
  - (* CHANGE_SCALE_NAMING_SCHEME *)
    apply onScale_filed; [done |]. same_scale_id.
  - (* CHANGE_CURVE_VALUES *)
    by apply onCurve_filed.
  - (* CHANGE_SCALE_COLORS *)
    apply onScale_filed; [done |]. same_scale_id.
  - (* APPLY_EASING_FUNCTION *)
    unfold APPLY_EASING_FUNCTION_recipe.
    destruct (ps !! paletteId) as [palette |] eqn:Hp; [| done].
    destruct (palette_curves palette !! curveId) as [curve |] eqn:Hcv; [| done].
    cbv zeta. repeat case_match; intros [= <-]; try done.
    apply filedUnderIds_insert; [done |].
    destruct (Hps _ _ Hp) as (Hid & Hss & Hc & Hn). repeat split; try done.
    intros k c. cbn [setCurves palette_curves].
    destruct (decide (curveId = k)) as [<- | Hne].
    + rewrite lookup_insert_eq. intros [= <-]. cbn. by apply Hc.
    + rewrite lookup_insert_ne by done. apply Hc.
  - (* UPDATE_NAMING_SCHEME *)
    apply onPalette_filed; [done |]. intros p p' (Hid & Hss & Hc & Hn) [= <-].
    repeat split; try done.
    intros k n. cbn [setNamingSchemes palette_namingSchemes].
    destruct (decide (namingScheme_id namingScheme = k)) as [<- | Hne].
    + rewrite lookup_insert_eq. by intros [= <-].
    + rewrite lookup_insert_ne by done. apply Hn.
Qed.

(** The invariant of a state: the document and every snapshot of the two
    stacks are filed under ids. *)
Lemma transition_keeps_filed eff (st : State) signal :
  match signal with Send event => importFiled event | After200 => True end ->
  filedUnderIds (palettes (context st))
  /\ Forall filedUnderIds (past (context st))
  /\ Forall filedUnderIds (future (context st)) ->
  let st' := transition hexToColor lerp cssColorNames exampleScales (sourceRecipes other)
               eff st signal in
  filedUnderIds (palettes (context st'))
  /\ Forall filedUnderIds (past (context st'))
  /\ Forall filedUnderIds (future (context st')).
Proof.
  intros Himport (Hps & Hpast & Hfuture). cbv zeta.
  destruct signal as [event |]; [| by cbn; destruct (value st)].
  assert (Hexit : forall v,
             filedUnderIds (palettes (exit v (context st)))
             /\ Forall filedUnderIds (past (exit v (context st)))
             /\ Forall filedUnderIds (future (exit v (context st)))).
  { intros []; cbn [exit]; [| done]. split; [done |]. split; [| by cbn].
    rewrite idle_exit_past. apply Forall_drop, Forall_app. split; [done |].
    by rewrite Forall_singleton. }
  assert (Hactions : forall c c',
             filedUnderIds (palettes c) /\ Forall filedUnderIds (past c)
             /\ Forall filedUnderIds (future c) ->
             actions hexToColor lerp cssColorNames exampleScales (sourceRecipes other)
               eff event c = Some c' ->
             filedUnderIds (palettes c') /\ Forall filedUnderIds (past c')
             /\ Forall filedUnderIds (future c')).
  { intros c c' (Hc & Hcp & Hcf).
    destruct event; cbn [actions];
      try (destruct (recipeOf eff _ (palettes c)) as [qs |] eqn:Hq; [| done];
           intros [= <-]; cbn [palettes past future];
           split; [by apply (recipe_keeps_filed _ _ _ _ Hc Himport Hq) | done]).
    - (* UNDO *)
      intros [= <-]. destruct (decide (past c = [])) as [Hpe | Hpne].
      + by rewrite (UNDO_recipe_empty _ Hpe).
      + destruct (snoc_of_nonempty _ Hpne) as (earlier & present & Hsn).
        rewrite (UNDO_recipe_push _ _ _ Hsn). cbn [palettes past future].
        rewrite Hsn in Hcp. apply Forall_app in Hcp as [He Hpr].
        rewrite Forall_singleton in Hpr. split; [exact Hpr |]. split; [exact He |].
        apply Forall_app. split; [exact Hcf | by rewrite Forall_singleton].
    - (* REDO *)
      intros [= <-]. destruct (future c) as [| f fs] eqn:Hfe.
      + by rewrite (REDO_recipe_empty _ Hfe), Hfe.
      + rewrite (REDO_recipe_shift _ f fs Hfe). cbn [palettes past future].
        apply Forall_cons in Hcf as [Hf Hfs]. split; [exact Hf |]. split; [| exact Hfs].
        apply Forall_app. split; [exact Hcp | by rewrite Forall_singleton]. }
  unfold transition. destruct (target event) as [next |].
  - destruct (actions _ _ _ _ _ _ _ _) as [c' |] eqn:Hc; [| done].
    apply (Hactions _ _ (Hexit (value st)) Hc).
  - destruct (actions _ _ _ _ _ _ _ _) as [c' |] eqn:Hc; [| done].
    by apply (Hactions (context st) c').
Qed.

(** X23. In every state the machine reaches from its initial state, every
    palette, scale, curve and naming scheme of the document and of every
    snapshot in [past] and [future] is filed under its own id, provided the
    scales an [IMPORT_SCALES] command brings are. *)
Theorem reachable_documents_filed_under_ids (signals : list (Effects * Signal)) :
  Forall (fun s : Effects * Signal =>
            match s.2 with Send event => importFiled event | After200 => True end)
         signals ->
  filedUnderIds (palettes (context (runs signals)))
  /\ Forall filedUnderIds (past (context (runs signals)))
  /\ Forall filedUnderIds (future (context (runs signals))).
Proof.
  induction signals as [| [eff signal] signals IH] using rev_ind.
  - intros _. split; [| by split]. by intros k p Hk.
  - intros Hall. apply Forall_app in Hall as [Hinit Hlast].
    rewrite Forall_singleton in Hlast. cbn in Hlast.
    rewrite run_snoc. apply transition_keeps_filed; [exact Hlast |]. by apply IH.
Qed.

End Filed.

(** ** The export *)

Lemma append_empty (s : string) : s +:+ "" = s.
Proof. induction s as [| a s IH]; [done |]. by rewrite <- IH at 2. Qed.

Lemma pretty_N_go_nonempty (x : N) : forall s, s <> "" -> pretty_N_go x s <> "".
Proof.
  induction (N.lt_wf_0 x) as [x _ IH]. intros s Hs.
  destruct (decide (x = 0%N)) as [-> | Hx]; [by rewrite pretty_N_go_0 |].
  rewrite pretty_N_go_step by lia. apply IH; [| done].
  apply N.div_lt; lia.
Qed.

Lemma pretty_nat_nonempty (i : nat) : pretty i <> "".
Proof.
  unfold pretty, pretty_nat, pretty, pretty_N.
  destruct (decide (N.of_nat i = 0%N)) as [_ | Hne]; [done |].
  rewrite pretty_N_go_step by lia. by apply pretty_N_go_nonempty.
Qed.

Section ExportFacts.

Variable camelCase : string -> string.
Variable colorToHex : Color -> string.
Variable getColor : gmap string Curve -> Scale -> nat -> option Color.
Variable inherited : gset string.

Local Abbreviation candidate name i := (camelCase name +:+ pretty i).

Lemma candidate_inj name (i j : nat) : candidate name i = candidate name j -> i = j.
Proof. intros H. by apply (inj (String.app _)), (inj pretty) in H. Qed.

Lemma candidate_not_base name (i : nat) : camelCase name <> candidate name i.
Proof.
  intros H. apply (pretty_nat_nonempty i).
  apply (inj (String.app (camelCase name))). by rewrite <- H, append_empty.
Qed.

(** The loop ends within as many rounds as there are taken keys among those
    it can meet, and the key it returns is not taken. *)
Lemma freeKey_Some (acc : gmap string HexScale) name :
  forall rounds i key (taken : gset string),
    (forall j, i < j -> key <> candidate name j) ->
    (keyIn inherited key acc = true -> key ∈ taken) ->
    (forall j, i < j -> keyIn inherited (candidate name j) acc = true ->
               candidate name j ∈ taken) ->
    size taken <= rounds ->
    exists k,
      freeKey camelCase inherited rounds acc name i key = Some k
      /\ keyIn inherited k acc = false
      /\ (k = key \/ exists j, i < j /\ k = candidate name j).
Proof.
  induction rounds as [| rounds IH]; intros i key taken Hkey Hin Hlater Hsize.
  - exists key. simpl. destruct (keyIn inherited key acc) eqn:Hk.
    + specialize (Hin eq_refl). assert (H0 : size taken = 0) by lia.
      apply size_empty_inv in H0. rewrite (H0 key) in Hin. by apply elem_of_empty in Hin.
    + eauto.
  - simpl. destruct (keyIn inherited key acc) eqn:Hk; [| by exists key; eauto].
    specialize (Hin eq_refl).
    destruct (IH (S i) (candidate name (S i)) (taken ∖ {[ key ]})) as (k & Hr & Hfree & Hk').
    + intros j Hj Heq. apply candidate_inj in Heq. lia.
    + intros Hnext. apply elem_of_difference. split; [apply Hlater; [lia | done] |].
      apply not_elem_of_singleton. intros Heq. by apply (Hkey (S i)); [lia |].
    + intros j Hj Hnext. apply elem_of_difference. split; [apply Hlater; [lia | done] |].
      apply not_elem_of_singleton. intros Heq. by apply (Hkey j); [lia |].
    + rewrite size_difference by (by apply singleton_subseteq_l). rewrite size_singleton.
      assert (Hpos : size taken <> 0); [| lia].
      intros H0. apply size_empty_inv in H0. rewrite (H0 key) in Hin.
      by apply elem_of_empty in Hin.
    + exists k. split; [done |]. split; [done |]. right.
      destruct Hk' as [-> | (j & Hj & ->)]; [exists (S i) | exists j]; split; (lia || done).
Qed.

Lemma keyIn_true key (acc : gmap string HexScale) :
  keyIn inherited key acc = true <-> key ∈ inherited ∪ dom acc.
Proof.
  unfold keyIn. rewrite orb_true_iff, !bool_decide_eq_true, elem_of_union, elem_of_dom.
  done.
Qed.

(** The key of a scale is found, and it is a new one. *)
Lemma keyFor_Some (acc : gmap string HexScale) name :
  exists key,
    keyFor camelCase inherited acc name = Some key
    /\ (key ∉ inherited)
    /\ acc !! key = None
    /\ (key = camelCase name \/ exists i, 1 < i /\ key = candidate name i).
Proof.
  destruct (freeKey_Some acc name (size inherited + size acc) 1 (camelCase name)
              (inherited ∪ dom acc)) as (key & Hr & Hfree & Hkey).
  - intros j _. apply candidate_not_base.
  - by rewrite keyIn_true.
  - intros j _. by rewrite keyIn_true.
  - rewrite size_union_alt, <- size_dom.
    assert (Hle : size (dom acc ∖ inherited) <= size (dom acc)); [| lia].
    apply subseteq_size. intros k Hk. by apply elem_of_difference in Hk as [Hk _].
  - exists key. split; [done |].
    assert (Hnot : ~ key ∈ inherited ∪ dom acc).
    { intros Hin. apply keyIn_true in Hin. congruence. }
    rewrite elem_of_union in Hnot.
    split; [tauto |]. split; [| done].
    apply not_elem_of_dom. tauto.
Qed.

Local Abbreviation reducer palette :=
  (fun acc scale =>
     acc ≫= fun acc => hexScalesStep camelCase colorToHex getColor inherited palette acc scale).

(** The reduce from an accumulator on. *)
Lemma hexScales_from palette (values : list Scale) :
  (forall scale, scale ∈ values -> is_Some (hexScale colorToHex getColor palette scale)) ->
  forall acc : gmap string HexScale,
    (forall key, is_Some (acc !! key) -> key ∉ inherited) ->
    exists export,
      foldl (reducer palette) (Some acc) values = Some export
      /\ size export = size acc + length values
      /\ acc ⊆ export
      /\ (forall key, is_Some (export !! key) -> key ∉ inherited)
      /\ (forall scale,
            scale ∈ values ->
            exists key entry,
              export !! key = Some entry
              /\ hexScale colorToHex getColor palette scale = Some entry
              /\ (key = camelCase (scale_name scale)
                  \/ exists i, 1 < i /\ key = candidate (scale_name scale) i)).
Proof.
  induction values as [| scale values IH]; intros Hdefined acc Hacc.
  - exists acc. simpl. split; [done |]. split; [lia |]. split; [done |]. split; [done |].
    intros scale Hin. by apply elem_of_nil in Hin.
  - destruct (keyFor_Some acc (scale_name scale)) as (key & Hkey & Hnot & Hnew & Hform).
    destruct (Hdefined scale) as [entry Hentry]; [by apply elem_of_cons; left |].
    destruct (IH (fun s Hs => Hdefined s (proj2 (elem_of_cons values s scale) (or_intror Hs)))
                 (<[key := entry]> acc))
      as (export & Hr & Hsize & Hsub & Hkeys & Hall).
    { intros k [e Hk]. apply lookup_insert_Some in Hk as [[<- _] | [_ Hk]]; [done |].
      by apply Hacc. }
    exists export. split.
    { simpl. unfold hexScalesStep at 2. by rewrite Hkey, Hentry. }
    split; [rewrite Hsize, map_size_insert_None by done; simpl; lia |].
    split; [by etrans; [apply insert_subseteq |] |].
    split; [done |].
    intros s Hs. apply elem_of_cons in Hs as [-> | Hs]; [| by apply Hall].
    exists key, entry. split; [| done].
    apply (lookup_weaken _ _ _ _ (lookup_insert_eq acc key entry) Hsub).
Qed.


(** The object of the entries of distinct names holds every entry. *)
Lemma fromEntries_NoDup (entries : list (string * string)) :
  NoDup entries.*1 ->
  size (foldl (fun object entry => <[entry.1 := entry.2]> object) (∅ : gmap string string) entries)
  = length entries
  /\ forall i name color,
       entries !! i = Some (name, color) ->
       foldl (fun object entry => <[entry.1 := entry.2]> object) (∅ : gmap string string) entries !! name
       = Some color.
Proof.
  induction entries as [| [n c] entries IH] using rev_ind; [done |].
  rewrite fmap_app, NoDup_app. intros (Hnd & Hfresh & _).
  destruct (IH Hnd) as [Hsize Hlookup]. rewrite foldl_snoc. cbn [fst snd].
  assert (Hnew : foldl (fun object entry => <[entry.1 := entry.2]> object) (∅ : gmap string string) entries !! n
                 = None).
  { apply eq_None_not_Some. intros [c' Hc'].
    assert (Hdom : forall l : list (string * string), forall k v,
               foldl (fun object entry => <[entry.1 := entry.2]> object) (∅ : gmap string string) l !! k = Some v ->
               k ∈ l.*1).
    { induction l as [| [n' c''] l IHl] using rev_ind; intros k v.
      - simpl. by rewrite lookup_empty.
      - rewrite foldl_snoc, fmap_app, elem_of_app. cbn [fst snd fmap list_fmap].
        intros Hk. apply lookup_insert_Some in Hk as [[<- _] | [_ Hk]].
        + right. by left.
        + left. by apply (IHl k v). }
    apply (Hfresh n); [by apply (Hdom entries n c') | by left]. }
  split.
  - rewrite map_size_insert_None by done. rewrite length_app, Hsize. simpl. lia.
  - intros i name color Hi. apply lookup_app_Some in Hi as [Hi | [Hge Hi]].
    + rewrite lookup_insert_ne; [by apply (Hlookup i) |].
      intros <-. apply (Hfresh n); [| by left].
      apply (list_elem_of_lookup_2 _ i). by rewrite list_lookup_fmap, Hi.
    + apply list_lookup_singleton_Some in Hi as [_ [= <- <-]].
      by rewrite lookup_insert_eq.
Qed.

(** X25. The colors of a scale are exported under their names without a
    loss when the scale has no naming scheme, where the names are the
    indices, or a naming scheme of distinct names that are at least as many
    as the colors: the object has one entry for each color, the color at an
    index under the name at that index. *)
Theorem export_names_every_color (namingScheme : option NamingScheme)
    (colors : list string) :
  match namingScheme with
  | Some scheme =>
      NoDup (namingScheme_names scheme)
      /\ length colors <= length (namingScheme_names scheme)
  | None => True
  end ->
  size (colorsWithNames namingScheme colors) = length colors
  /\ forall index color,
       colors !! index = Some color ->
       colorsWithNames namingScheme colors !! colorName namingScheme index = Some color
       /\ match namingScheme with
          | Some scheme => namingScheme_names scheme !! index
                           = Some (colorName namingScheme index)
          | None => colorName namingScheme index = pretty index
          end.
Proof.
  intros Hscheme. unfold colorsWithNames.
  destruct (fromEntries_NoDup
              (imap (fun index color => (colorName namingScheme index, color)) colors))
    as [Hsize Hlookup].
  { assert (Hkeys : (imap (fun index color => (colorName namingScheme index, color))
                          colors).*1
                    = colorName namingScheme <$> seq 0 (length colors)).
    { apply list_eq. intros i. rewrite !list_lookup_fmap, list_lookup_imap.
      destruct (colors !! i) as [c |] eqn:Hi; simpl.
      - by rewrite lookup_seq_lt by (by apply lookup_lt_Some in Hi).
      - by rewrite lookup_seq_ge by (by apply lookup_ge_None_1 in Hi). }
    rewrite Hkeys. destruct namingScheme as [scheme |].
    - destruct Hscheme as [Hnd Hlen].
      assert (Htake : colorName (Some scheme) <$> seq 0 (length colors)
                      = take (length colors) (namingScheme_names scheme)).
      { apply list_eq. intros i. rewrite list_lookup_fmap.
        destruct (decide (i < length colors)) as [Hlt | Hge].
        - rewrite lookup_seq_lt, lookup_take_lt by done. simpl.
          destruct (lookup_lt_is_Some_2 (namingScheme_names scheme) i) as [n Hn]; [lia |].
          by rewrite Hn.
        - rewrite lookup_seq_ge, lookup_take_ge by lia. done. }
      rewrite Htake.
      rewrite <- (take_drop (length colors) (namingScheme_names scheme)) in Hnd.
      by apply NoDup_app in Hnd as [Hnd _].
    - apply (NoDup_fmap_2 _). apply NoDup_seq. }
  split; [by rewrite Hsize, length_imap |].
  intros index color Hi. split.
  - apply (Hlookup index). by rewrite list_lookup_imap, Hi.
  - destruct namingScheme as [scheme |]; [| done]. destruct Hscheme as [_ Hlen].
    apply lookup_lt_Some in Hi.
    destruct (lookup_lt_is_Some_2 (namingScheme_names scheme) index) as [n Hn]; [lia |].
    simpl. by rewrite Hn.
Qed.

End ExportFacts.

(** * The further properties on sample documents *)

Section SampleMachine.

Local Abbreviation sampleStep :=
  (transition Sample.hexToColor Sample.lerp [] [] Sample.rest Sample.effects).

Local Abbreviation openStep :=
  (transition Sample.hexToColor Sample.lerp [] [] (sourceRecipes Sample.raising)
              Sample.effects).

(** X1 on the sample: a color is deleted, the edit settles, and [UNDO]
    brings the ramp back; [REDO] deletes the color again. *)
Lemma undo_reverts_settled_edit_sample :
  let settled :=
    sampleStep (sampleStep (mkState idle Sample.undone) (Send (DELETE_COLOR "p" "s" 0)))
               After200 in
  sampleStep settled (Send UNDO)
  = mkState idle (mkContext Sample.B [Sample.A] [Sample.doc "B" Sample.shortRamp])
  /\ sampleStep (sampleStep settled (Send UNDO)) (Send REDO) = settled.
Proof.
  exact (undo_reverts_settled_edit Sample.hexToColor Sample.lerp [] [] Sample.rest
           Sample.effects (DELETE_COLOR "p" "s" 0) Sample.undone
           (Sample.doc "B" Sample.shortRamp) eq_refl eq_refl).
Defined.

(** X2 on the sample: two colors are deleted within one burst, and one
    [UNDO] brings both back. *)
Lemma undo_reverts_whole_burst_sample :
  sampleStep
    (sampleStep (sampleStep (mkState idle Sample.undone) (Send (DELETE_COLOR "p" "s" 0)))
                (Send (DELETE_COLOR "p" "s" 0)))
    (Send UNDO)
  = mkState debouncing
      (mkContext Sample.B [Sample.A] [Sample.doc "B" [Some (Sample.hsl 0 0 30)]]).
Proof.
  exact (undo_reverts_whole_burst Sample.hexToColor Sample.lerp [] [] Sample.rest
           Sample.effects (DELETE_COLOR "p" "s" 0) (DELETE_COLOR "p" "s" 0) Sample.undone
           (Sample.doc "B" Sample.shortRamp) (Sample.doc "B" [Some (Sample.hsl 0 0 30)])
           eq_refl eq_refl eq_refl eq_refl).
Defined.

(** X3 on the sample: [REDO] and then [UNDO] on the context whose [future]
    is ["C"]. *)
Lemma redo_then_undo_sample :
  sampleStep (sampleStep (mkState idle Sample.undone) (Send REDO)) (Send UNDO)
  = mkState idle (mkContext Sample.B [Sample.A] [Sample.C]).
Proof.
  exact (redo_then_undo_restores_document Sample.hexToColor Sample.lerp [] [] Sample.rest
           Sample.effects (mkState idle Sample.undone) Sample.C [] eq_refl).
Defined.

(** X5 on the sample: deleting a color drops the document ["C"] that could
    be redone. *)
Lemma edit_discards_redo_sample :
  future (context (sampleStep (mkState idle Sample.undone)
                              (Send (DELETE_COLOR "p" "s" 0)))) = []
  /\ sampleStep (sampleStep (mkState idle Sample.undone) (Send (DELETE_COLOR "p" "s" 0)))
                (Send REDO)
     = sampleStep (mkState idle Sample.undone) (Send (DELETE_COLOR "p" "s" 0)).
Proof.
  exact (edit_discards_redo Sample.hexToColor Sample.lerp [] [] Sample.rest
           Sample.effects (DELETE_COLOR "p" "s" 0) Sample.undone
           (Sample.doc "B" Sample.shortRamp) eq_refl eq_refl).
Defined.


(** X9 on the sample: deleting the palette ["q"], which the document does
    not have, still pushes a snapshot and drops ["C"]. *)
Lemma DELETE_PALETTE_of_missing_palette_sample :
  openStep (mkState idle Sample.undone) (Send (DELETE_PALETTE "q"))
  = mkState debouncing (mkContext Sample.B [Sample.A; Sample.B] []).
Proof.
  exact (DELETE_PALETTE_of_missing_palette_checkpoints
           Sample.hexToColor Sample.lerp [] [] Sample.raising Sample.effects
           Sample.undone "q" eq_refl).
Defined.

End SampleMachine.

(** X7 on the sample: the copy of the palette ["p"] is filed under ["new"]. *)
Lemma DUPLICATE_PALETTE_sample :
  exists ps' copy,
    DUPLICATE_PALETTE_recipe Sample.effects "p" Sample.A = Some ps'
    /\ ps' !! "new" = Some copy
    /\ palette_name copy = "A (copy)"
    /\ DELETE_PALETTE_recipe "new" ps' = Some Sample.A.
Proof.
  destruct (DUPLICATE_PALETTE_copies_and_deletes_back Sample.effects "p" Sample.A
              (Sample.palette "A" (Sample.scale Sample.ramp noCurves) ∅ ∅)
              eq_refl eq_refl)
    as (ps' & copy & Hr & _ & Hcopy & _ & Hname & _ & _ & _ & _ & Hback).
  by exists ps', copy.
Defined.

(** X10 on the sample: a color created behind the first color of the ramp
    is a copy of it. *)
Lemma CREATE_COLOR_inserts_behind_sample :
  (CREATE_COLOR_recipe Sample.hexToColor ["black"] Sample.effects "p" "s" (Some 0%Z)
     Sample.A
   ≫= fun ps => colorsAt ps "p" "s")
  = Some (Some (Sample.hsl 0 0 10) :: Sample.ramp).
Proof.
  pose proof (CREATE_COLOR_inserts_behind Sample.hexToColor ["black"] Sample.effects
                "p" "s" (Some 0%Z) Sample.A
                (Sample.palette "A" (Sample.scale Sample.ramp noCurves) ∅ ∅)
                (Sample.scale Sample.ramp noCurves) 0 (Sample.hsl 0 0 10)
                eq_refl eq_refl eq_refl eq_refl) as H.
  cbv zeta in H. destruct H as [Hr _]. rewrite Hr. reflexivity.
Defined.

(** X11 on the sample: deleting the color at index 1 of the ramp. *)
Lemma DELETE_COLOR_removes_indexed_color_sample :
  (DELETE_COLOR_recipe "p" "s" (Z.of_nat 1) Sample.A ≫= fun ps => colorsAt ps "p" "s")
  = Some [Some (Sample.hsl 0 0 10); Some (Sample.hsl 0 0 30)].
Proof.
  destruct (DELETE_COLOR_removes_indexed_color "p" "s" 1 Sample.A
              (Sample.palette "A" (Sample.scale Sample.ramp noCurves) ∅ ∅)
              (Sample.scale Sample.ramp noCurves)
              eq_refl eq_refl eq_refl ltac:(simpl; lia) ltac:(simpl; lia)) as [Hr _].
  rewrite Hr. reflexivity.
Defined.

(** X12 on the sample: the scale of the palette ["named"] has a naming
    scheme. *)
Lemma naming_scheme_locks_color_count_sample :
  POP_COLOR_recipe "p" "s" Sample.named = Some Sample.named
  /\ DELETE_COLOR_recipe "p" "s" 0 Sample.named = Some Sample.named.
Proof.
  exact (naming_scheme_locks_color_count "p" "s" 0 Sample.named
           (Sample.palette "A"
              (mkScale "s" "gray"
                 [Some (Sample.hsl 0 0 10); Some (Sample.hsl 0 0 20);
                  Some (Sample.hsl 0 0 20)]
                 noCurves (Some "n"))
              ∅ {[ "n" := mkNamingScheme "n" "steps" ["0"; "1"; "2"] ]})
           (mkScale "s" "gray"
              [Some (Sample.hsl 0 0 10); Some (Sample.hsl 0 0 20);
               Some (Sample.hsl 0 0 20)]
              noCurves (Some "n"))
           eq_refl eq_refl ltac:(discriminate)).
Defined.


(** X14 on the sample: deleting the curve ["c"] keeps the effective
    lightness 5 of the scale that followed it. *)
Lemma DELETE_CURVE_keeps_effective_colors_sample :
  effectiveColorAt Sample.withSingleValueCurve "p" "s" 0 = Some (Sample.hsl 0 0 5)
  /\ (DELETE_CURVE_recipe "p" "c" Sample.withSingleValueCurve
      ≫= fun ps => effectiveColorAt ps "p" "s" 0) = Some (Sample.hsl 0 0 5)
  /\ (DELETE_CURVE_recipe "p" "c" Sample.withSingleValueCurve
      ≫= fun ps => valuesAt ps "p" "c") = None.
Proof.
  split; [reflexivity |].
  destruct (DELETE_CURVE_keeps_effective_colors "p" "c" Sample.withSingleValueCurve
              (Sample.palette "A"
                 (Sample.scale [Some (Sample.hsl 0 0 0)] (mkScaleCurves None None (Some "c")))
                 {[ "c" := mkCurve "c" "gray lightness" Lightness [Some 5%float] ]} ∅)
              eq_refl)
    as (ps' & palette' & Hr & Hp & Hcurves & _ & Hscales).
  { intros scaleId scale Hs. unfold Sample.palette in Hs. cbn [palette_scales] in Hs.
    apply lookup_singleton_Some in Hs as [_ <-].
    intros [| index] Hi; [by eexists | simpl in Hi; lia]. }
  destruct (Hscales "s" _ eq_refl) as (scale' & Hs & _ & _ & Hcolor).
  rewrite Hr. cbn [mbind option_bind]. split.
  - unfold effectiveColorAt. rewrite Hp, Hs.
    exact (Hcolor 0 (Sample.hsl 0 0 5) eq_refl).
  - unfold valuesAt. rewrite Hp, Hcurves. reflexivity.
Defined.

(** X15 on the sample: easing a curve without values. *)
Lemma APPLY_EASING_FUNCTION_needs_end_points_sample :
  APPLY_EASING_FUNCTION_recipe Sample.lerp "p" "c" Sample.linear Sample.withEmptyCurve
  = Some Sample.withEmptyCurve.
Proof.
  exact (APPLY_EASING_FUNCTION_needs_end_points Sample.lerp "p" "c" Sample.linear
           Sample.withEmptyCurve
           (Sample.palette "A" (Sample.scale [] noCurves)
              {[ "c" := mkCurve "c" "flat" Lightness [] ]} ∅)
           (mkCurve "c" "flat" Lightness []) eq_refl eq_refl (or_introl eq_refl)).
Defined.

(** X16 on the sample: the copy ["new"] of the scale that follows the curve
    ["c"] shows the same lightness 5. *)
Lemma DUPLICATE_SCALE_copy_sample :
  (DUPLICATE_SCALE_recipe Sample.effects "p" "s" Sample.withSingleValueCurve
   ≫= fun ps => effectiveColorAt ps "p" "new" 0)
  = Some (Sample.hsl 0 0 5).
Proof.
  destruct (DUPLICATE_SCALE_copy_shows_same_colors Sample.effects "p" "s"
              Sample.withSingleValueCurve
              (Sample.palette "A"
                 (Sample.scale [Some (Sample.hsl 0 0 0)] (mkScaleCurves None None (Some "c")))
                 {[ "c" := mkCurve "c" "gray lightness" Lightness [Some 5%float] ]} ∅)
              (Sample.scale [Some (Sample.hsl 0 0 0)] (mkScaleCurves None None (Some "c")))
              eq_refl eq_refl eq_refl)
    as (ps' & palette' & copy & Hr & Hp & _ & Hcopy & _ & _ & _ & _ & Hcolor).
  rewrite Hr. cbn [mbind option_bind]. unfold effectiveColorAt.
  rewrite Hp. change (uniqueId Sample.effects 0) with "new" in Hcopy. rewrite Hcopy.
  rewrite Hcolor. reflexivity.
Defined.

(** X17 on the sample: writing the lightness 25 into the color at index 1
    of the ramp. *)
Lemma CHANGE_COLOR_VALUE_writes_one_color_sample :
  exists colors,
    (CHANGE_COLOR_VALUE_recipe "p" "s" 1 (mkColor None None (Some 25%float)) Sample.A
     ≫= fun ps => colorsAt ps "p" "s") = Some colors
    /\ length colors = 3
    /\ colors !! 1 = Some (Some (Sample.hsl 0 0 25))
    /\ colors !! 2 = Some (Some (Sample.hsl 0 0 30)).
Proof.
  destruct (proj2 (CHANGE_COLOR_VALUE_writes_one_color "p" "s" 1
                     (mkColor None None (Some 25%float)) Sample.A
                     (Sample.palette "A" (Sample.scale Sample.ramp noCurves) ∅ ∅)
                     (Sample.scale Sample.ramp noCurves) eq_refl eq_refl)
                  (Sample.hsl 0 0 20) eq_refl)
    as (colors & Hr & Hlen & Hi & Hj & _).
  exists colors. rewrite Hr. cbn [mbind option_bind]. unfold colorsAt.
  rewrite lookup_insert_eq. cbn [palette_scales setScales]. rewrite lookup_insert_eq.
  split; [reflexivity |]. split; [exact Hlen |]. split; [exact Hi |].
  exact (Hj 2 ltac:(discriminate)).
Defined.

(** X18 on the sample: an emptied hue input, whose [valueAsNumber] is NaN,
    stores the hue 0. *)
Lemma color_page_inputs_store_numbers_sample :
  exists ps' stored,
    sourceRecipes Sample.raising Sample.effects (onChange Hue "p" "s" 1 nan) Sample.A
    = Some ps'
    /\ ColorPage ps' "p" "s" (Some 1%Z) = Some (Some stored)
    /\ channel stored Hue = Some 0%float
    /\ channel stored Lightness = Some 20%float.
Proof.
  destruct (color_page_inputs_store_numbers Sample.raising Sample.effects Hue "p" "s" 1 nan
              Sample.A (Sample.hsl 0 0 20) eq_refl)
    as (ps' & stored & v & Hr & Hpage & Hv & -> & _ & Hother).
  exists ps', stored. split; [exact Hr |]. split; [exact Hpage |].
  split; [exact Hv |]. exact (Hother Lightness ltac:(discriminate)).
Defined.

(** X19 on the sample: the naming scheme made from the ramp has the names
    ["0"], ["1"] and ["2"]. *)
Lemma CREATE_NAMING_SCHEME_FROM_SCALE_sample :
  exists ps' palette' namingScheme,
    CREATE_NAMING_SCHEME_FROM_SCALE_recipe Sample.effects "p" "s" Sample.A = Some ps'
    /\ ps' !! "p" = Some palette'
    /\ palette_namingSchemes palette' !! "new" = Some namingScheme
    /\ namingScheme_name namingScheme = "gray naming scheme"
    /\ length (namingScheme_names namingScheme) = 3
    /\ namingScheme_names namingScheme !! 2 = Some "2".
Proof.
  destruct (CREATE_NAMING_SCHEME_FROM_SCALE_names_every_color Sample.effects "p" "s"
              Sample.A
              (Sample.palette "A" (Sample.scale Sample.ramp noCurves) ∅ ∅)
              (Sample.scale Sample.ramp noCurves) eq_refl eq_refl)
    as (ps' & palette' & namingScheme & Hr & Hp & Hn & _ & Hname & Hlen & Hnames & _).
  exists ps', palette', namingScheme.
  split; [exact Hr |]. split; [exact Hp |]. split; [exact Hn |].
  split; [exact Hname |]. split; [exact Hlen |].
  exact (Hnames 2 ltac:(simpl; lia)).
Defined.

(** X20 on the sample: right after the naming scheme is made from the ramp,
    the scale refuses to lose a color and attaching the scheme again changes
    nothing. *)
Lemma created_naming_scheme_fits_scale_sample :
  exists ps',
    CREATE_NAMING_SCHEME_FROM_SCALE_recipe Sample.effects "p" "s" Sample.A = Some ps'
    /\ POP_COLOR_recipe "p" "s" ps' = Some ps'
    /\ DELETE_COLOR_recipe "p" "s" 0 ps' = Some ps'
    /\ CHANGE_SCALE_NAMING_SCHEME_recipe "p" "s" (Some "new") ps' = Some ps'.
Proof.
  destruct (CREATE_NAMING_SCHEME_FROM_SCALE_recipe Sample.effects "p" "s" Sample.A)
    as [ps' |] eqn:Hr; [| discriminate Hr].
  exists ps'. split; [reflexivity |].
  exact (created_naming_scheme_fits_scale Sample.effects "p" "s" 0 Sample.A ps'
           ltac:(discriminate) Hr).
Defined.

(** X21 on the sample: a naming scheme of three names on a scale without
    colors leaves three empty slots. *)
Lemma attach_naming_scheme_to_empty_scale_sample :
  (CHANGE_SCALE_NAMING_SCHEME_recipe "p" "s" (Some "n") Sample.emptyWithNamingScheme
   ≫= fun ps => colorsAt ps "p" "s")
  = Some [None; None; None].
Proof.
  rewrite (attach_naming_scheme_to_empty_scale "p" "s" "n" Sample.emptyWithNamingScheme
             (Sample.palette "A" (Sample.scale [] noCurves) ∅
                {[ "n" := mkNamingScheme "n" "steps" ["0"; "1"; "2"] ]})
             (Sample.scale [] noCurves) (mkNamingScheme "n" "steps" ["0"; "1"; "2"])
             eq_refl eq_refl eq_refl ltac:(discriminate) eq_refl).
  reflexivity.
Defined.


(** X23 on the sample: the session that creates a palette, deletes colors,
    undoes and imports a scale. *)
Lemma reachable_documents_filed_sample :
  let c :=
    context (run Sample.hexToColor Sample.lerp ["black"] Sample.exampleScales
                 (sourceRecipes Sample.raising) Sample.importSession) in
  filedUnderIds (palettes c)
  /\ Forall filedUnderIds (past c)
  /\ Forall filedUnderIds (future c).
Proof.
  assert (Hraising : forall eff event (ps ps' : Palettes),
             filedUnderIds ps -> Sample.raising eff event ps = Some ps' ->
             filedUnderIds ps').
  { intros eff event ps ps' _ H. discriminate H. }
  assert (Himport : Forall (fun s : Effects * Signal =>
                              match s.2 with
                              | Send event => importFiled event
                              | After200 => True
                              end) Sample.importSession).
  { unfold Sample.importSession, Sample.session. cbn [app].
    repeat (apply Forall_cons_2; [exact I |]).
    apply Forall_cons_2; [| apply Forall_nil_2].
    intros k s Hk. unfold Sample.imported in Hk.
    by apply lookup_singleton_Some in Hk as [<- <-]. }
  exact (reachable_documents_filed_under_ids Sample.hexToColor Sample.lerp ["black"]
           Sample.exampleScales Sample.raising Hraising Sample.importSession Himport).
Defined.


(** X25 on the sample: two colors under a naming scheme of three names. *)
Lemma export_names_sample :
  size (colorsWithNames (Some (mkNamingScheme "n" "steps" ["light"; "mid"; "dark"]))
                        ["#111111"; "#222222"]) = 2
  /\ colorsWithNames (Some (mkNamingScheme "n" "steps" ["light"; "mid"; "dark"]))
                     ["#111111"; "#222222"] !! "mid" = Some "#222222".
Proof.
  assert (Hnames : NoDup ["light"; "mid"; "dark"] /\ 2 <= 3).
  { split; [| lia]. repeat (apply NoDup_cons; split; [| ]); try apply NoDup_nil_2.
    - intros Hin. repeat (apply elem_of_cons in Hin as [Heq | Hin]; [discriminate Heq |]).
      by apply elem_of_nil in Hin.
    - intros Hin. repeat (apply elem_of_cons in Hin as [Heq | Hin]; [discriminate Heq |]).
      by apply elem_of_nil in Hin.
    - intros Hin. by apply elem_of_nil in Hin. }
  destruct (export_names_every_color
              (Some (mkNamingScheme "n" "steps" ["light"; "mid"; "dark"]))
              ["#111111"; "#222222"] Hnames) as [Hsize Hcolors].
  split; [exact Hsize |]. exact (proj1 (Hcolors 1 "#222222" eq_refl)).
Defined.

(** X26 on the sample: [DELETE_COLOR] on a scale of one color. *)
Lemma DELETE_COLOR_floor_sample :
  (DELETE_COLOR_recipe "p" "s" 0 (Sample.doc "A" [Some (Sample.hsl 0 50 50)])
   ≫= fun ps => colorsAt ps "p" "s")
  = Some [Some (Sample.hsl 0 50 50)].
Proof.
  destruct (DELETE_COLOR_floor "p" "s" 0 (Sample.doc "A" [Some (Sample.hsl 0 50 50)])
              (Sample.palette "A" (Sample.scale [Some (Sample.hsl 0 50 50)] noCurves) ∅ ∅)
              (Sample.scale [Some (Sample.hsl 0 50 50)] noCurves)
              eq_refl eq_refl ltac:(simpl; lia))
    as (scale' & Hr & _ & Hsame).
  rewrite Hr, (Hsame eq_refl). reflexivity.
Defined.

(** X27 on the sample: the linear easing straightens the curve of the
    values 0, 7 and 10. *)
Lemma APPLY_EASING_FUNCTION_values_sample :
  exists values,
    (APPLY_EASING_FUNCTION_recipe Sample.lerp "p" "c" Sample.linear Sample.withBentCurve
     ≫= fun ps => valuesAt ps "p" "c") = Some values
    /\ length values = 3
    /\ values !! 1 = Some (Some 5%float).
Proof.
  destruct (APPLY_EASING_FUNCTION_values Sample.lerp "p" "c" Sample.linear
              Sample.withBentCurve
              (Sample.palette "A" (Sample.scale Sample.ramp noCurves)
                 {[ "c" := mkCurve "c" "bent" Lightness
                                   [Some 0%float; Some 7%float; Some 10%float] ]} ∅)
              (mkCurve "c" "bent" Lightness [Some 0%float; Some 7%float; Some 10%float])
              0%float 10%float eq_refl eq_refl eq_refl eq_refl)
    as (values & Hr & Hlen & Hvalues).
  exists values. rewrite Hr. cbn [mbind option_bind]. unfold valuesAt.
  rewrite lookup_insert_eq. cbn [palette_curves setCurves]. rewrite lookup_insert_eq.
  split; [reflexivity |]. split; [exact Hlen |].
  exact (Hvalues 1 ltac:(simpl; lia)).
Defined.
